(** * http-light: a shallow embedding of the protocol engine

    The program is a single Go file, [http-light.go]: a request parser
    ([parseRequest]), two route handlers, a response serializer
    ([writeResponse]) and the per-connection driver ([handleConnection]).

    Go strings are byte sequences, modelled by [string] (a list of
    [ascii], one per byte).  Integers of type [int] are modelled by [Z];
    the program performs no arithmetic on them, so no wrap-around occurs.
    [map[string]string] is a [gmap string string].

    The file first models the parts of the Go standard library the program
    calls (packages utf8, unicode, strings, strconv, io/bufio, sync), then
    the program itself, then the properties. *)

From Stdlib Require Import ZArith NArith String Ascii DecimalString List Lia.
From stdpp Require Import gmap strings list.
From Equations Require Import Equations.

Open Scope string_scope.

(** ** Byte-level helpers on strings *)

(** [s[:n]] when [n <= len(s)]. *)
Fixpoint str_take (n : nat) (s : string) : string :=
  match n, s with
  | S k, String c t => String c (str_take k t)
  | _, _ => ""
  end.

(** [s[n:]] when [n <= len(s)]. *)
Fixpoint str_drop (n : nat) (s : string) : string :=
  match n, s with
  | S k, String _ t => str_drop k t
  | _, _ => s
  end.

(** [s[i]] as a number; the callers below guard the index by a length test. *)
Definition byte_at (s : string) (i : nat) : N :=
  match String.get i s with
  | Some c => N_of_ascii c
  | None => 0%N
  end.

Fixpoint str_repeat (c : ascii) (n : nat) : string :=
  match n with
  | O => ""
  | S k => String c (str_repeat c k)
  end.

(** ** Package unicode/utf8 *)

Module Utf8.

Definition RuneError : N := 0xFFFD%N.
Definition RuneSelf : N := 0x80%N.
Definition UTFMax : nat := 4.

Definition maskx : N := 0x3F%N.
Definition mask2 : N := 0x1F%N.
Definition mask3 : N := 0x0F%N.
Definition mask4 : N := 0x07%N.
Definition locb : N := 0x80%N.
Definition hicb : N := 0xBF%N.

Definition xx : N := 0xF1%N.
Definition as_ : N := 0xF0%N.
Definition s1 : N := 0x02%N.
Definition s2 : N := 0x13%N.
Definition s3 : N := 0x03%N.
Definition s4 : N := 0x23%N.
Definition s5 : N := 0x34%N.
Definition s6 : N := 0x04%N.
Definition s7 : N := 0x44%N.

(** The table [first]: information about the first byte of an encoding. *)
Definition first (b : N) : N :=
  if (b <? 0x80)%N then as_
  else if (b <? 0xC2)%N then xx
  else if (b <? 0xE0)%N then s1
  else if (b =? 0xE0)%N then s2
  else if (b <? 0xED)%N then s3
  else if (b =? 0xED)%N then s4
  else if (b <? 0xF0)%N then s3
  else if (b =? 0xF0)%N then s5
  else if (b <? 0xF4)%N then s6
  else if (b =? 0xF4)%N then s7
  else xx.

(** The table [acceptRanges]: bounds on the second byte. *)
Definition acceptRanges (i : N) : N * N :=
  if (i =? 0)%N then (locb, hicb)
  else if (i =? 1)%N then (0xA0%N, hicb)
  else if (i =? 2)%N then (locb, 0x9F%N)
  else if (i =? 3)%N then (0x90%N, hicb)
  else if (i =? 4)%N then (locb, 0x8F%N)
  else (0%N, 0%N).

(** [DecodeRuneInString]: the first rune of [s] and its width in bytes;
    [(RuneError, 0)] on the empty string and [(RuneError, 1)] on an
    invalid encoding. *)
Definition DecodeRuneInString (s : string) : N * nat :=
  let n := String.length s in
  if (n <? 1)%nat then (RuneError, 0%nat)
  else
    let b0 := byte_at s 0 in
    let x := first b0 in
    if (as_ <=? x)%N then
      ((if (x =? xx)%N then RuneError else b0), 1%nat)
    else
      let sz := N.to_nat (N.land x 7) in
      let accept := acceptRanges (N.shiftr x 4) in
      if (n <? sz)%nat then (RuneError, 1%nat)
      else
        let b1 := byte_at s 1 in
        if ((b1 <? fst accept) || (snd accept <? b1))%N then (RuneError, 1%nat)
        else if (sz <=? 2)%nat then
          (N.lor (N.shiftl (N.land b0 mask2) 6) (N.land b1 maskx), 2%nat)
        else
          let b2 := byte_at s 2 in
          if ((b2 <? locb) || (hicb <? b2))%N then (RuneError, 1%nat)
          else if (sz <=? 3)%nat then
            (N.lor (N.lor (N.shiftl (N.land b0 mask3) 12)
                          (N.shiftl (N.land b1 maskx) 6))
                   (N.land b2 maskx), 3%nat)
          else
            let b3 := byte_at s 3 in
            if ((b3 <? locb) || (hicb <? b3))%N then (RuneError, 1%nat)
            else
              (N.lor (N.lor (N.lor (N.shiftl (N.land b0 mask4) 18)
                                   (N.shiftl (N.land b1 maskx) 12))
                            (N.shiftl (N.land b2 maskx) 6))
                     (N.land b3 maskx), 4%nat).

(** [RuneStart]: the byte is not a continuation byte. *)
Definition RuneStart (b : N) : bool :=
  negb (N.land b 0xC0 =? 0x80)%N.

(** The backwards scan of [DecodeLastRuneInString]:
    [for start--; start >= lim; start-- { if RuneStart(s[start]) { break } }].
    It runs at most [UTFMax - 1] times; [k] bounds the iterations. *)
Fixpoint scan_back (k : nat) (s : string) (start lim : Z) : Z :=
  match k with
  | O => start
  | S k' =>
      if (start <? lim)%Z then start
      else if RuneStart (byte_at s (Z.to_nat start)) then start
      else scan_back k' s (start - 1)%Z lim
  end.

(** [DecodeLastRuneInString]: the last rune of [s] and its width. *)
Definition DecodeLastRuneInString (s : string) : N * nat :=
  let end_ := Z.of_nat (String.length s) in
  if (end_ =? 0)%Z then (RuneError, 0%nat)
  else
    let start := (end_ - 1)%Z in
    let r := byte_at s (Z.to_nat start) in
    if (r <? RuneSelf)%N then (r, 1%nat)
    else
      let lim := (end_ - Z.of_nat UTFMax)%Z in
      let lim := if (lim <? 0)%Z then 0%Z else lim in
      let start := scan_back UTFMax s (start - 1)%Z lim in
      let start := if (start <? 0)%Z then 0%Z else start in
      let '(r, size) :=
        DecodeRuneInString
          (str_take (Z.to_nat (end_ - start)) (str_drop (Z.to_nat start) s)) in
      if negb (start + Z.of_nat size =? end_)%Z then (RuneError, 1%nat)
      else (r, size).

End Utf8.

(** ** Package unicode *)

Module Unicode.

(** [IsSpace]: the Latin-1 switch, then the [White_Space] range table. *)
Definition IsSpace (r : N) : bool :=
  if (r <=? 0xFF)%N then
    ((r =? 0x09) || (r =? 0x0A) || (r =? 0x0B) || (r =? 0x0C) || (r =? 0x0D)
     || (r =? 0x20) || (r =? 0x85) || (r =? 0xA0))%N
  else
    ((r =? 0x1680) || ((0x2000 <=? r) && (r <=? 0x200A))
     || (r =? 0x2028) || (r =? 0x2029) || (r =? 0x202F) || (r =? 0x205F)
     || (r =? 0x3000))%N.

End Unicode.

(** ** Package strings *)

Module Strings.

(** [indexFunc(s, f, truth)]: the byte index of the first rune [r] with
    [f(r) == truth], ranging over the runes of [s]; [None] is Go's [-1].
    Every iteration consumes at least one byte, so [String.length s]
    iterations suffice. *)
Fixpoint indexFunc_loop (k : nat) (s : string) (f : N → bool) (truth : bool)
    : option nat :=
  match k with
  | O => None
  | S k' =>
      match s with
      | "" => None
      | _ =>
          let '(r, w) := Utf8.DecodeRuneInString s in
          if Bool.eqb (f r) truth then Some 0%nat
          else (λ i, (w + i)%nat) <$> indexFunc_loop k' (str_drop w s) f truth
      end
  end.

Definition indexFunc (s : string) (f : N → bool) (truth : bool) : option nat :=
  indexFunc_loop (String.length s) s f truth.

(** [lastIndexFunc(s, f, truth)]:
    [for i := len(s); i > 0; { r, size := DecodeLastRuneInString(s[0:i]);
       i -= size; if f(r) == truth { return i } }; return -1]. *)
Fixpoint lastIndexFunc_loop (k : nat) (s : string) (i : nat) (f : N → bool)
    (truth : bool) : option nat :=
  match k with
  | O => None
  | S k' =>
      if (i =? 0)%nat then None
      else
        let '(r, size) := Utf8.DecodeLastRuneInString (str_take i s) in
        let i := (i - size)%nat in
        if Bool.eqb (f r) truth then Some i
        else lastIndexFunc_loop k' s i f truth
  end.

Definition lastIndexFunc (s : string) (f : N → bool) (truth : bool) : option nat :=
  lastIndexFunc_loop (String.length s) s (String.length s) f truth.

Definition TrimLeftFunc (s : string) (f : N → bool) : string :=
  match indexFunc s f false with
  | None => ""
  | Some i => str_drop i s
  end.

Definition TrimRightFunc (s : string) (f : N → bool) : string :=
  match lastIndexFunc s f false with
  | Some i =>
      if (Utf8.RuneSelf <=? byte_at s i)%N then
        let '(_, wid) := Utf8.DecodeRuneInString (str_drop i s) in
        str_take (i + wid) s
      else str_take (i + 1) s
  | None => ""
  end.

Definition TrimFunc (s : string) (f : N → bool) : string :=
  TrimRightFunc (TrimLeftFunc s f) f.

(** [TrimSpace(s)] removes all leading and trailing white space, as
    defined by Unicode.  It is [TrimFunc(s, unicode.IsSpace)]; recent Go
    releases add a fast path for ASCII that returns the same string. *)
Definition TrimSpace (s : string) : string :=
  TrimFunc s Unicode.IsSpace.

(** [Index(s, substr)]: the index of the first instance of [substr];
    [None] is Go's [-1]. *)
Fixpoint Index (s substr : string) : option nat :=
  if String.prefix substr s then Some 0%nat
  else
    match s with
    | "" => None
    | String _ t => S <$> Index t substr
    end.

(** [Count(s, substr)] for a non-empty [substr]: the number of
    non-overlapping instances. *)
Fixpoint Count_loop (k : nat) (s substr : string) : nat :=
  match k with
  | O => 0%nat
  | S k' =>
      match Index s substr with
      | None => 0%nat
      | Some i => S (Count_loop k' (str_drop (i + String.length substr) s) substr)
      end
  end.

Definition Count (s substr : string) : nat :=
  Count_loop (String.length s) s substr.

(** The loop of [genSplit]:
    [for i < n { m := Index(s, sep); if m < 0 { break };
       a[i] = s[:m]; s = s[m+len(sep):]; i++ }; a[i] = s]. *)
Fixpoint genSplit_loop (n : nat) (s sep : string) : list string :=
  match n with
  | O => [s]
  | S n' =>
      match Index s sep with
      | None => [s]
      | Some m =>
          str_take m s :: genSplit_loop n' (str_drop (m + String.length sep) s) sep
      end
  end.

(** [genSplit(s, sep, 0, n)] for a non-empty separator, which is the case
    at both call sites of the program (the empty separator splits into
    runes and is not modelled; the model leaves the string whole). *)
Definition genSplit (s sep : string) (n : Z) : list string :=
  if (n =? 0)%Z then []
  else if String.eqb sep "" then [s]
  else
    let n := if (n <? 0)%Z then (Z.of_nat (Count s sep) + 1)%Z else n in
    let n := if (Z.of_nat (String.length s) + 1 <? n)%Z
             then (Z.of_nat (String.length s) + 1)%Z else n in
    genSplit_loop (Z.to_nat (n - 1)) s sep.

Definition Split (s sep : string) : list string := genSplit s sep (-1).
Definition SplitN (s sep : string) (n : Z) : list string := genSplit s sep n.

End Strings.

(** ** Package strconv *)

Module Strconv.

Definition digit (c : ascii) : option Z :=
  let v := Z.of_N (N_of_ascii c) in
  if ((48 <=? v) && (v <=? 57))%Z then Some (v - 48)%Z else None.

(** The digits of [s] in base 10, most significant first, added to [acc]. *)
Fixpoint digits (acc : Z) (s : string) : option Z :=
  match s with
  | "" => Some acc
  | String c t =>
      match digit c with
      | Some d => digits (acc * 10 + d)%Z t
      | None => None
      end
  end.

(** [Atoi(s)]: [ParseInt(s, 10, 0)] as an [int] (64 bits).  An optional
    sign, then at least one decimal digit and nothing else; the value must
    fit in 64 bits.  [None] stands for both of Go's errors, [ErrSyntax]
    and [ErrRange]; the program does not tell them apart. *)
Definition Atoi (s : string) : option Z :=
  match s with
  | "" => None
  | String c t =>
      let neg := Ascii.eqb c "-" in
      let body := if (Ascii.eqb c "-" || Ascii.eqb c "+")%bool then t else s in
      match body with
      | "" => None
      | _ =>
          match digits 0 body with
          | None => None
          | Some n =>
              let v := if neg then (- n)%Z else n in
              if ((- 2 ^ 63 <=? v) && (v <=? 2 ^ 63 - 1))%Z then Some v else None
          end
      end
  end.

(** The verb [%d] of [fmt.Sprintf] on an [int]. *)
Definition Itoa (i : Z) : string :=
  NilZero.string_of_int (Z.to_int i).

End Strconv.

(** ** Errors, package io and the network connection *)

(** The error values the program can see: those it makes itself with
    [fmt.Errorf], the two sentinel errors of package io, and the errors
    reported by the network connection (a [*net.OpError]: connection reset,
    broken pipe, ...). *)
Inductive error : Type :=
  | Errorf (msg : string)
  | EOF
  | ErrUnexpectedEOF
  | OpError (msg : string).

(** [err.Error()], as printed by the verb [%v]. *)
Definition Error (e : error) : string :=
  match e with
  | Errorf msg => msg
  | EOF => "EOF"
  | ErrUnexpectedEOF => "unexpected EOF"
  | OpError msg => msg
  end.

(** What [Read] reports once the bytes sent by the peer are consumed: an
    orderly close ([io.EOF]) or a failure of the connection. *)
Inductive stream_end : Type :=
  | PeerClosed
  | ReadFails (msg : string).

Definition end_error (e : stream_end) : error :=
  match e with
  | PeerClosed => EOF
  | ReadFails msg => OpError msg
  end.

(** A failing [Write]: it transmits the first [wf_sent] bytes of its
    argument (all of them if there are fewer) and returns an error. *)
Record write_fault : Type := { wf_sent : nat; wf_msg : string }.

(** A [net.Conn] seen from the server.  [incoming] are the bytes the peer
    sends before [incoming_end] happens; a peer that stays silent forever
    without closing is not modelled.  [faults] scripts the successive calls
    of [Write]: [Some f] fails, [None] and calls beyond the script succeed.
    [writes] records the argument of every call of [Write], [wire] the bytes
    transmitted. *)
Record Conn : Type := {
  remote_addr : string;
  incoming : string;
  incoming_end : stream_end;
  faults : list (option write_fault);
  writes : list string;
  wire : string;
  closed : bool
}.

(** [conn.Write(b)]; only the error of the result is used by the program. *)
Definition Write (conn : Conn) (b : string) : option error * Conn :=
  let sent_err :=
    match faults conn with
    | Some f :: _ => (str_take (wf_sent f) b, Some (OpError (wf_msg f)))
    | _ => (b, None)
    end in
  (snd sent_err,
   {| remote_addr := remote_addr conn;
      incoming := incoming conn;
      incoming_end := incoming_end conn;
      faults := tail (faults conn);
      writes := writes conn ++ [b];
      wire := wire conn ++ fst sent_err;
      closed := closed conn |}).

(** [conn.Close()]. *)
Definition Close (conn : Conn) : Conn :=
  {| remote_addr := remote_addr conn;
     incoming := incoming conn;
     incoming_end := incoming_end conn;
     faults := faults conn;
     writes := writes conn;
     wire := wire conn;
     closed := true |}.

(** ** Package bufio *)

(** A [bufio.Reader] on a connection: the bytes not yet handed to the
    caller, and what follows them. *)
Record Reader : Type := { rd_buf : string; rd_end : stream_end }.

Definition NewReader (conn : Conn) : Reader :=
  {| rd_buf := incoming conn; rd_end := incoming_end conn |}.

(** [bytes.IndexByte]. *)
Fixpoint IndexByte (s : string) (c : ascii) : option nat :=
  match s with
  | "" => None
  | String a t => if Ascii.eqb a c then Some 0%nat else S <$> IndexByte t c
  end.

(** [reader.ReadString(delim)]: the bytes up to and including the first
    [delim]; if the stream ends before a [delim], the bytes read so far and
    the error. *)
Definition ReadString (r : Reader) (delim : ascii) : string * option error * Reader :=
  match IndexByte (rd_buf r) delim with
  | Some i =>
      (str_take (S i) (rd_buf r), None,
       {| rd_buf := str_drop (S i) (rd_buf r); rd_end := rd_end r |})
  | None =>
      (rd_buf r, Some (end_error (rd_end r)), {| rd_buf := ""; rd_end := rd_end r |})
  end.

(** [io.ReadFull(reader, buf)] on a slice whose current contents are [buf]:
    the new contents of the slice, the error, and the reader.  It reads
    exactly [len(buf)] bytes; with fewer available it stores what there is
    and returns [io.EOF] if nothing was read, [io.ErrUnexpectedEOF] if the
    stream closed after some bytes, and the connection's error otherwise.
    With [len(buf) = 0] it returns at once without reading. *)
Definition ReadFull (r : Reader) (buf : string) : string * option error * Reader :=
  let min := String.length buf in
  let avail := String.length (rd_buf r) in
  if (min <=? avail)%nat then
    (str_take min (rd_buf r), None,
     {| rd_buf := str_drop min (rd_buf r); rd_end := rd_end r |})
  else
    (rd_buf r ++ str_drop avail buf,
     Some (match rd_end r with
           | PeerClosed => if (avail =? 0)%nat then EOF else ErrUnexpectedEOF
           | ReadFails msg => OpError msg
           end),
     {| rd_buf := ""; rd_end := rd_end r |}).

(** ** Package sync: the buffer pool *)

(** A byte slice handed out by the pool: the identity of its backing array
    and the array's contents; its length and capacity are both the length
    of [buf_data]. *)
Record Buffer : Type := { buf_id : nat; buf_data : string }.

Inductive PoolEvent : Type :=
  | EvGet (id : nat)
  | EvPut (id : nat).

(** [sync.Pool]: the idle buffers, the identity of the next array to
    allocate, and the calls made so far.  [Get] takes an idle buffer when
    there is one (the real pool may pick any, or none). *)
Record Pool : Type := {
  idle : list Buffer;
  next_id : nat;
  history : list PoolEvent
}.

(** The capacity of the pooled buffers: [make([]byte, 4096)]. *)
Definition poolCapacity : nat := 4096.

(** [bufferPool.New]. *)
Definition New (id : nat) : Buffer :=
  {| buf_id := id; buf_data := str_repeat zero poolCapacity |}.

(** [bufferPool.Get().([]byte)]. *)
Definition Get (p : Pool) : Buffer * Pool :=
  match idle p with
  | b :: rest =>
      (b, {| idle := rest; next_id := next_id p;
             history := history p ++ [EvGet (buf_id b)] |})
  | [] =>
      (New (next_id p),
       {| idle := []; next_id := S (next_id p);
          history := history p ++ [EvGet (next_id p)] |})
  end.

(** [bufferPool.Put(b)]. *)
Definition Put (p : Pool) (b : Buffer) : Pool :=
  {| idle := b :: idle p; next_id := next_id p;
     history := history p ++ [EvPut (buf_id b)] |}.

(** The slice expression [b[:length]] on a slice [b] whose length is its
    capacity: [None] is the run-time panic "slice bounds out of range". *)
Definition slice_to (b : string) (length : Z) : option string :=
  if ((0 <=? length) && (length <=? Z.of_nat (String.length b)))%Z
  then Some (str_take (Z.to_nat length) b)
  else None.

(** The result of a Go function of type [(T, error)] that may panic. *)
Inductive outcome (A : Type) : Type :=
  | Return (a : A)
  | Fail (e : error)
  | Panic (msg : string).
Arguments Return {A} a.
Arguments Fail {A} e.
Arguments Panic {A} msg.

(** ** The program: http-light.go *)

Definition LF : ascii := "010"%char.
Definition CRLF : string := String "013"%char (String "010"%char "").

Record Request : Type := {
  Method : string;
  URL : string;
  Headers : gmap string string;
  Body : string
}.

(** The fields [Headers] and [Body] of [Response] are named [RHeaders] and
    [RBody]: two records cannot share field names. *)
Record Response : Type := {
  StatusCode : Z;
  RHeaders : gmap string string;
  RBody : string
}.

(** A successful [ReadString('\n')] hands out at least one byte. *)
Lemma ReadString_shrinks r delim line r' :
  ReadString r delim = (line, None, r') →
  (String.length (rd_buf r') < String.length (rd_buf r))%nat.
Proof.
  unfold ReadString. destruct (IndexByte (rd_buf r) delim) as [i|] eqn:E; [|discriminate].
  intros [= <- <-]. simpl. revert i E.
  induction (rd_buf r) as [|c t IH]; intros i E; simpl in E; [discriminate|].
  destruct (Ascii.eqb c delim).
  - injection E as <-. simpl. lia.
  - destruct (IndexByte t delim) as [j|]; [|discriminate].
    injection E as <-. specialize (IH j eq_refl). simpl in *. lia.
Qed.

(** A value together with the equation that names it, to keep the result of
    a call in scope of the termination proof. *)
Definition inspect {A : Type} (a : A) : {b : A | a = b} := exist _ a eq_refl.

(** The header loop of [parseRequest] (lines 96 to 110): the error, or the
    header map and the reader after the empty line. *)
Equations? readHeaders (reader : Reader) (headers : gmap string string)
    : error + gmap string string * Reader
    by wf (String.length (rd_buf reader)) lt :=
  readHeaders reader headers with inspect (ReadString reader LF) => {
    | exist _ (_, Some err, _) _ := inl err
    | exist _ (line, None, reader') Hread :=
        let line := Strings.TrimSpace line in
        if String.eqb line "" then inr (headers, reader')
        else
          match Strings.SplitN line ": " 2 with
          | [key; value] => readHeaders reader' (<[key := value]> headers)
          | _ => inl (Errorf "malformed header line")
          end }.
Proof. eapply ReadString_shrinks; eassumption. Qed.

(** Lines 118 to 125, between [Get] and the deferred [Put]: the body, and
    the contents of the pooled array afterwards.  [bodyBytes] shares the
    array of [bodyBuffer], so what [ReadFull] stores lands in the buffer. *)
Definition readBody (reader : Reader) (bodyBuffer : Buffer) (length : Z)
    : outcome string * Buffer :=
  match slice_to (buf_data bodyBuffer) length with
  | None => (Panic "runtime error: slice bounds out of range", bodyBuffer)
  | Some bodyBytes =>
      let '(bodyBytes, err, _) := ReadFull reader bodyBytes in
      let bodyBuffer :=
        {| buf_id := buf_id bodyBuffer;
           buf_data := bodyBytes ++ str_drop (String.length bodyBytes) (buf_data bodyBuffer) |} in
      match err with
      | Some e => (Fail e, bodyBuffer)
      | None => (Return bodyBytes, bodyBuffer)
      end
  end.

(** [parseRequest(conn)], with the global [bufferPool] passed explicitly. *)
Definition parseRequest (bufferPool : Pool) (conn : Conn) : outcome Request * Pool :=
  let reader := NewReader conn in
  let '(requestLine, err, reader) := ReadString reader LF in
  match err with
  | Some e => (Fail e, bufferPool)
  | None =>
      let parts := Strings.Split (Strings.TrimSpace requestLine) " " in
      if negb (List.length parts =? 3)%nat then
        (Fail (Errorf "malformed request line"), bufferPool)
      else
        let method := nth 0 parts "" in
        let url := nth 1 parts "" in
        match readHeaders reader ∅ with
        | inl e => (Fail e, bufferPool)
        | inr (headers, reader) =>
            match headers !! "Content-Length" with
            | Some contentLength =>
                match Strconv.Atoi contentLength with
                | None => (Fail (Errorf "invalid Content-Length"), bufferPool)
                | Some length =>
                    let '(bodyBuffer, bufferPool) := Get bufferPool in
                    (* defer bufferPool.Put(bodyBuffer): runs on every exit
                       from here on, a panic included *)
                    let '(result, bodyBuffer) := readBody reader bodyBuffer length in
                    let bufferPool := Put bufferPool bodyBuffer in
                    match result with
                    | Return body =>
                        (Return {| Method := method; URL := url;
                                   Headers := headers; Body := body |}, bufferPool)
                    | Fail e => (Fail e, bufferPool)
                    | Panic msg => (Panic msg, bufferPool)
                    end
                end
            | None =>
                (Return {| Method := method; URL := url;
                           Headers := headers; Body := "" |}, bufferPool)
            end
        end
  end.

Definition handleRoot (req : Request) : Response :=
  {| StatusCode := 200;
     RHeaders := {[ "Content-Type" := "text/plain" ]};
     RBody := "Welcome to the root page!" |}.

Definition handleHello (req : Request) : Response :=
  let name := default "" (Headers req !! "Name") in
  let name := if String.eqb name "" then "World" else name in
  {| StatusCode := 200;
     RHeaders := {[ "Content-Type" := "text/plain" ]};
     RBody := "Hello, " ++ name ++ "!" |}.

Definition handleRequest (req : Request) : Response :=
  if String.eqb (URL req) "/" then handleRoot req
  else if String.eqb (URL req) "/hello" then handleHello req
  else
    {| StatusCode := 404;
       RHeaders := {[ "Content-Type" := "text/plain" ]};
       RBody := "404 Not Found" |}.

Definition statusText (statusCode : Z) : string :=
  if (statusCode =? 200)%Z then "OK"
  else if (statusCode =? 400)%Z then "Bad Request"
  else if (statusCode =? 404)%Z then "Not Found"
  else if (statusCode =? 500)%Z then "Internal Server Error"
  else "Unknown Status".

(** [fmt.Sprintf("HTTP/1.1 %d %s\r\n", code, statusText(code))]. *)
Definition statusLine (statusCode : Z) : string :=
  "HTTP/1.1 " ++ Strconv.Itoa statusCode ++ " " ++ statusText statusCode ++ CRLF.

(** [fmt.Sprintf("%s: %s\r\n", key, value)]. *)
Definition headerLine (kv : string * string) : string :=
  fst kv ++ ": " ++ snd kv ++ CRLF.

(** The loop of [writeResponse] (lines 184 to 190) over the entries in the
    order the [range] statement yields them. *)
Fixpoint writeHeaders (conn : Conn) (entries : list (string * string))
    : option error * Conn :=
  match entries with
  | [] => (None, conn)
  | kv :: rest =>
      let '(err, conn) := Write conn (headerLine kv) in
      match err with
      | Some e => (Some e, conn)
      | None => writeHeaders conn rest
      end
  end.

(** How the handler of one connection ends. *)
Inductive exit : Type :=
  | Returned
  | Panicked (msg : string).

Section Serving.

(** The order in which [range] yields the entries of a map.  Go leaves it
    unspecified; the properties below assume only that every entry comes
    exactly once. *)
Variable range : gmap string string → list (string * string).

Definition writeResponse (conn : Conn) (res : Response) : option error * Conn :=
  let '(err, conn) := Write conn (statusLine (StatusCode res)) in
  match err with
  | Some e => (Some e, conn)
  | None =>
      let '(err, conn) := writeHeaders conn (range (RHeaders res)) in
      match err with
      | Some e => (Some e, conn)
      | None =>
          let '(err, conn) := Write conn CRLF in
          match err with
          | Some e => (Some e, conn)
          | None => Write conn (RBody res)
          end
      end
  end.

(** [writeErrorResponse]: the connection afterwards and the lines logged. *)
Definition writeErrorResponse (conn : Conn) (statusCode : Z) (message : string)
    : Conn * list string :=
  let res := {| StatusCode := statusCode;
                RHeaders := {[ "Content-Type" := "text/plain" ]};
                RBody := message |} in
  let '(err, conn) := writeResponse conn res in
  match err with
  | Some e => (conn, ["Error writing error response: " ++ Error e])
  | None => (conn, [])
  end.

(** [handleConnection(conn)]: how it ends, the connection and the pool
    afterwards, and the lines logged.  [defer conn.Close()] runs on every
    exit, a panic of [parseRequest] included. *)
Definition handleConnection (bufferPool : Pool) (conn : Conn)
    : exit * Conn * Pool * list string :=
  let log := ["Accepted connection from " ++ remote_addr conn] in
  let '(parsed, bufferPool) := parseRequest bufferPool conn in
  match parsed with
  | Panic msg => (Panicked msg, Close conn, bufferPool, log)
  | Fail err =>
      let log := (log ++ ["Error parsing request: " +:+ Error err])%list in
      let '(conn, lines) := writeErrorResponse conn 400 "Bad Request" in
      (Returned, Close conn, bufferPool, (log ++ lines)%list)
  | Return req =>
      let res := handleRequest req in
      let '(err, conn) := writeResponse conn res in
      let log :=
        match err with
        | Some e => (log ++ ["Error writing response: " +:+ Error e])%list
        | None => log
        end in
      (Returned, Close conn, bufferPool, log)
  end.

End Serving.

(** ** Vocabulary of the properties *)

(** The ASCII white space bytes (the table [asciiSpace] of package
    strings): tab, line feed, vertical tab, form feed, carriage return,
    space. *)
Definition asciiSpace (c : ascii) : bool :=
  let n := N_of_ascii c in
  ((n =? 9) || (n =? 10) || (n =? 11) || (n =? 12) || (n =? 13) || (n =? 32))%N.

(** ASCII white space that can pad a line: any but the line feed. *)
Definition linePad (c : ascii) : bool :=
  asciiSpace c && negb (Ascii.eqb c LF).

Fixpoint str_forall (P : ascii → bool) (s : string) : bool :=
  match s with
  | "" => true
  | String c t => P c && str_forall P t
  end.

Fixpoint str_concat (l : list string) : string :=
  match l with
  | [] => ""
  | s :: rest => s ++ str_concat rest
  end.

(** A line as it travels: its bytes, then the line feed. *)
Definition terminated (line : string) : string := line ++ String LF "".

(** The lines of a header section, each with its line feed. *)
Definition lines_bytes (lines : list string) : string :=
  str_concat (map terminated lines).

(** A header line split at the first occurrence of colon-space. *)
Definition header_entry (line : string) : option (string * string) :=
  match Strings.Index line ": " with
  | Some m => Some (str_take m line, str_drop (m + 2) line)
  | None => None
  end.


(** The arguments of the calls of [Write] that [writeResponse] makes when
    none of them fails, for the entries in the order [entries]. *)
Definition response_writes (res : Response) (entries : list (string * string))
    : list string :=
  (statusLine (StatusCode res) :: map headerLine entries ++ [CRLF; RBody res])%list.

(** The first failing call among the next [n] calls of [Write]: its
    position and its fault. *)
Fixpoint first_failure (fs : list (option write_fault)) (n : nat)
    : option (nat * write_fault) :=
  match n, fs with
  | S _, Some f :: _ => Some (0%nat, f)
  | S n', None :: fs' => (λ kf, (S kf.1, kf.2)) <$> first_failure fs' n'
  | _, _ => None
  end.

(** The pooled buffers all have the capacity the pool allocates. *)
Definition pool_ok (pool : Pool) : Prop :=
  Forall (λ b, String.length (buf_data b) = poolCapacity) (idle pool).

(** A fresh connection on which the peer sends [input] and then closes. *)
Definition client (input : string) : Conn :=
  {| remote_addr := "127.0.0.1:50000"; incoming := input;
     incoming_end := PeerClosed; faults := []; writes := []; wire := "";
     closed := false |}.

(** The pool when the program starts. *)
Definition new_pool : Pool := {| idle := []; next_id := 0; history := [] |}.

(** The calls of [Write] on the messages in turn, abandoned at the first
    error: the shape of every sequence of writes in [writeResponse]. *)
Fixpoint writeAll (conn : Conn) (msgs : list string) : option error * Conn :=
  match msgs with
  | [] => (None, conn)
  | m :: rest =>
      let '(err, conn) := Write conn m in
      match err with
      | Some e => (Some e, conn)
      | None => writeAll conn rest
      end
  end.

(** ** Sample inputs *)

Definition TAB : string := String "009"%char "".
Definition CR : string := String "013"%char "".

(** The response of the repository's own test. *)
Definition hello_go : Response :=
  {| StatusCode := 200;
     RHeaders := {[ "Content-Type" := "text/plain" ]};
     RBody := "Hello, Go!" |}.

(** A connection whose second call of [Write] fails. *)
Definition broken_pipe : Conn :=
  {| remote_addr := "127.0.0.1:50000"; incoming := ""; incoming_end := PeerClosed;
     faults := [None; Some {| wf_sent := 3; wf_msg := "write: broken pipe" |}];
     writes := []; wire := ""; closed := false |}.

(** A request for the route /hello that names itself. *)
Definition hello_request : Request :=
  {| Method := "GET"; URL := "/hello";
     Headers := {[ "Name" := "Go" ]}; Body := "" |}.

(** A request that announces five bytes of body and sends three. *)
Definition short_body : Conn :=
  client ("POST / HTTP/1.1" ++ CRLF ++ "Content-Length: 5" ++ CRLF ++ CRLF ++ "hel").

(** A request whose body is one byte longer than a pooled buffer. *)
Definition large_body : Conn :=
  client ("POST / HTTP/1.1" ++ CRLF ++ "Content-Length: 4097" ++ CRLF ++ CRLF
          ++ str_repeat "a" 4097).

(** A request with a negative Content-Length. *)
Definition negative_length : Conn :=
  client ("POST / HTTP/1.1" ++ CRLF ++ "Content-Length: -1" ++ CRLF ++ CRLF).

(** The bytes of the answer to a request that could not be parsed. *)
Definition bad_request_bytes : string :=
  "HTTP/1.1 400 Bad Request" ++ CRLF ++ "Content-Type: text/plain" ++ CRLF
  ++ CRLF ++ "Bad Request".


(** A request whose header line is padded with spaces and a tab, and the
    same request with the bare header line. *)
Definition padded_request : Conn :=
  client (" " ++ TAB ++ "GET /hello HTTP/1.1 " ++ CRLF
          ++ "  Name: Go" ++ TAB ++ " " ++ CRLF ++ CRLF).

Definition bare_request : Conn :=
  client (" " ++ TAB ++ "GET /hello HTTP/1.1 " ++ CRLF
          ++ "Name: Go" ++ String LF "" ++ CRLF).

(** A pool that holds a buffer full of the bytes of an earlier request. *)
Definition used_pool : Pool :=
  {| idle := [{| buf_id := 0; buf_data := str_repeat "s" poolCapacity |}];
     next_id := 1; history := [EvGet 0; EvPut 0] |}.

(** The request parsed from a POST with five bytes of body. *)
Definition posted_request : Request :=
  {| Method := "POST"; URL := "/";
     Headers := {[ "Content-Length" := "5" ]}; Body := "hello" |}.

(** * Properties *)

#[local] Arguments String.append !_ _ / : simpl nomatch.


(** ** Facts about strings *)

Lemma str_length_app (s t : string) :
  String.length (s ++ t) = (String.length s + String.length t)%nat.
Proof. induction s as [|c s IH]; simpl; [reflexivity | now rewrite IH]. Qed.

Lemma str_app_assoc (s t u : string) : (s ++ t) ++ u = s ++ (t ++ u).
Proof. induction s as [|c s IH]; simpl; [reflexivity | now rewrite IH]. Qed.

Lemma str_app_nil_r (s : string) : s ++ "" = s.
Proof. induction s as [|c s IH]; simpl; [reflexivity | now rewrite IH]. Qed.

Lemma str_take_app_le (n : nat) (s t : string) :
  (n <= String.length s)%nat → str_take n (s ++ t) = str_take n s.
Proof.
  revert s; induction n as [|n IH]; intros [|c s] H; simpl in *; try reflexivity; try lia.
  rewrite IH by lia. reflexivity.
Qed.

Lemma str_take_all (s : string) : str_take (String.length s) s = s.
Proof. induction s as [|c s IH]; simpl; [reflexivity | now rewrite IH]. Qed.

Lemma str_take_length_app (s t : string) : str_take (String.length s) (s ++ t) = s.
Proof. rewrite str_take_app_le by lia. apply str_take_all. Qed.

Lemma str_drop_app_le (n : nat) (s t : string) :
  (n <= String.length s)%nat → str_drop n (s ++ t) = str_drop n s ++ t.
Proof.
  revert s; induction n as [|n IH]; intros [|c s] H; simpl in *; try reflexivity; try lia.
  apply IH. lia.
Qed.

Lemma str_drop_length_app (s t : string) : str_drop (String.length s) (s ++ t) = t.
Proof. induction s as [|c s IH]; simpl; [now destruct t | exact IH]. Qed.

Lemma str_length_drop (n : nat) (s : string) :
  String.length (str_drop n s) = (String.length s - n)%nat.
Proof.
  revert s; induction n as [|n IH]; intros [|c s]; simpl; try reflexivity.
  apply IH.
Qed.

Lemma str_length_take (n : nat) (s : string) :
  (n <= String.length s)%nat → String.length (str_take n s) = n.
Proof.
  revert s; induction n as [|n IH]; intros [|c s] H; simpl in *; try reflexivity; try lia.
  rewrite IH by lia. reflexivity.
Qed.


Lemma byte_at_app_l (s t : string) (i : nat) :
  (i < String.length s)%nat → byte_at (s ++ t) i = byte_at s i.
Proof.
  intros H. unfold byte_at. now rewrite <- (append_correct1 s t i H).
Qed.

Lemma byte_at_app_r (s t : string) : byte_at (s ++ t) (String.length s) = byte_at t 0.
Proof.
  unfold byte_at. now rewrite (append_correct2 s t 0).
Qed.

Import Utf8.

Lemma first_cases (b : N) :
  first b = as_ ∨ first b = xx ∨ first b = s1 ∨ first b = s2 ∨ first b = s3
  ∨ first b = s4 ∨ first b = s5 ∨ first b = s6 ∨ first b = s7.
Proof. unfold first. repeat case_match; tauto. Qed.

Lemma first_ascii (b : N) : (b < 0x80)%N → first b = as_.
Proof. intros H. unfold first. apply N.ltb_lt in H. now rewrite H. Qed.

Lemma byte_at_0 (c : ascii) (s : string) : byte_at (String c s) 0 = N_of_ascii c.
Proof. reflexivity. Qed.

Lemma byte_at_S (c : ascii) (s : string) (i : nat) :
  byte_at (String c s) (S i) = byte_at s i.
Proof. reflexivity. Qed.

Lemma DecodeRune_ascii (c : ascii) (s : string) :
  (N_of_ascii c < 0x80)%N →
  DecodeRuneInString (String c s) = (N_of_ascii c, 1%nat).
Proof.
  intros H. unfold DecodeRuneInString.
  rewrite byte_at_0, (first_ascii _ H). reflexivity.
Qed.

(** Evaluate the closed table look-ups left in the goal once the first
    byte's table entry is known. *)
Ltac eval_tables :=
  repeat match goal with
  | |- context [N.to_nat (N.land ?x 7)] =>
      let v := eval vm_compute in (N.to_nat (N.land x 7)) in
      change (N.to_nat (N.land x 7)) with v
  | |- context [acceptRanges (N.shiftr ?x 4)] =>
      let v := eval vm_compute in (acceptRanges (N.shiftr x 4)) in
      change (acceptRanges (N.shiftr x 4)) with v
  | |- context [(as_ <=? ?x)%N] =>
      let v := eval vm_compute in (as_ <=? x)%N in
      change (as_ <=? x)%N with v
  | |- context [(?x =? xx)%N] =>
      let v := eval vm_compute in (x =? xx)%N in
      change (x =? xx)%N with v
  end;
  cbv beta iota zeta;
  repeat match goal with
  | |- context [(?a <=? ?b)%nat] =>
      lazymatch a with S _ => idtac | O => idtac end;
      lazymatch b with S _ => idtac | O => idtac end;
      let v := eval vm_compute in (a <=? b)%nat in
      change (a <=? b)%nat with v
  end;
  cbv beta iota zeta; simpl fst; simpl snd.

Ltac split_ifs :=
  repeat match goal with
  | |- context [if ?c then _ else _] => destruct c eqn:?
  end.

(** The width of the first rune of a non-empty string is between one and
    the length of the string. *)
Lemma DecodeRune_width (s : string) :
  s ≠ "" →
  (1 <= snd (DecodeRuneInString s) <= String.length s)%nat.
Proof.
  intros Hs. destruct s as [|c0 s]; [congruence|]. clear Hs.
  unfold DecodeRuneInString.
  change (String.length (String c0 s) <? 1)%nat with false. cbv iota.
  rewrite byte_at_0.
  destruct (first_cases (N_of_ascii c0)) as [H|[H|[H|[H|[H|[H|[H|[H|H]]]]]]]];
    rewrite H; eval_tables; try (simpl; lia).
  all: split_ifs; simpl snd; try (simpl; lia).
  all: repeat match goal with
    | H : (_ <? _)%nat = false |- _ => apply Nat.ltb_ge in H
    end; simpl in *; lia.
Qed.

Ltac bool_to_prop :=
  repeat match goal with
  | H : (_ || _)%bool = true |- _ => apply orb_true_iff in H; destruct H
  | H : (_ || _)%bool = false |- _ => apply orb_false_iff in H; destruct H
  | H : (_ <? _)%N = true |- _ => apply N.ltb_lt in H
  | H : (_ <? _)%N = false |- _ => apply N.ltb_ge in H
  | H : (_ <? _)%nat = true |- _ => apply Nat.ltb_lt in H
  | H : (_ <? _)%nat = false |- _ => apply Nat.ltb_ge in H
  end.

(** Appending a string that starts with an ASCII byte does not change the
    first rune of a non-empty string. *)
Lemma DecodeRune_app_ascii (s t : string) (c : ascii) :
  s ≠ "" → (N_of_ascii c < 0x80)%N →
  DecodeRuneInString (s ++ String c t) = DecodeRuneInString s.
Proof.
  intros Hs Hc. destruct s as [|c0 s]; [congruence|]. clear Hs.
  unfold DecodeRuneInString.
  change (String.length (String c0 s) <? 1)%nat with false.
  change (String.length (String c0 s ++ String c t) <? 1)%nat with false.
  cbv iota. change (byte_at (String c0 s ++ String c t) 0) with (N_of_ascii c0).
  rewrite byte_at_0.
  destruct (first_cases (N_of_ascii c0)) as [H|[H|[H|[H|[H|[H|[H|[H|H]]]]]]]];
    rewrite H; eval_tables; try reflexivity.
  all: destruct s as [|c1 [|c2 [|c3 s]]]; simpl; try reflexivity.
  all: rewrite ?byte_at_S, ?byte_at_0.
  all: unfold locb, hicb; split_ifs; try reflexivity; bool_to_prop; try lia.
Qed.

Lemma scan_back_le (k : nat) (s : string) (start lim : Z) :
  (scan_back k s start lim <= start)%Z.
Proof.
  revert start; induction k as [|k IH]; intros start; simpl; [lia|].
  destruct (start <? lim)%Z; [lia|].
  destruct (RuneStart _); [lia|].
  specialize (IH (start - 1)%Z). lia.
Qed.

Lemma DecodeLastRune_ascii (s : string) (c : ascii) :
  (N_of_ascii c < 0x80)%N →
  DecodeLastRuneInString (s ++ String c "") = (N_of_ascii c, 1%nat).
Proof.
  intros Hc. unfold DecodeLastRuneInString.
  rewrite str_length_app. simpl String.length.
  destruct (Z.of_nat (String.length s + 1) =? 0)%Z eqn:E; [apply Z.eqb_eq in E; lia|].
  replace (Z.to_nat (Z.of_nat (String.length s + 1) - 1)) with (String.length s) by lia.
  rewrite byte_at_app_r, byte_at_0.
  apply N.ltb_lt in Hc. unfold RuneSelf. now rewrite Hc.
Qed.

Lemma DecodeLastRune_width (s : string) :
  s ≠ "" →
  (1 <= snd (DecodeLastRuneInString s) <= String.length s)%nat.
Proof.
  intros Hs. assert (0 < String.length s)%nat as Hlen.
  { destruct s; [congruence | simpl; lia]. }
  unfold DecodeLastRuneInString.
  destruct (Z.of_nat (String.length s) =? 0)%Z eqn:E; [apply Z.eqb_eq in E; lia|].
  destruct (_ <? RuneSelf)%N; [simpl; lia|].
  match goal with
  | |- context [scan_back ?k ?s0 ?a ?b] =>
      pose proof (scan_back_le k s0 a b) as Hscan;
      set (start0 := scan_back k s0 a b) in *
  end.
  set (start := if (start0 <? 0)%Z then 0%Z else start0).
  assert (0 <= start < Z.of_nat (String.length s))%Z as Hstart.
  { subst start. destruct (start0 <? 0)%Z eqn:Hneg; lia. }
  clearbody start. clear Hscan. clearbody start0.
  destruct (DecodeRuneInString _) as [r size] eqn:Hdec.
  destruct (start + Z.of_nat size =? Z.of_nat (String.length s))%Z eqn:Hend;
    simpl; [|lia].
  apply Z.eqb_eq in Hend. lia.
Qed.
Import Strings.

Lemma asciiSpace_spec (c : ascii) :
  asciiSpace c = true →
  (N_of_ascii c < 0x80)%N ∧ Unicode.IsSpace (N_of_ascii c) = true.
Proof.
  unfold asciiSpace, Unicode.IsSpace. cbv zeta. intros H.
  repeat (apply orb_true_iff in H; destruct H as [H|H]);
    apply N.eqb_eq in H; rewrite H; split; reflexivity.
Qed.

Lemma indexFunc_loop_fuel (f : N → bool) (truth : bool) (k1 k2 : nat) (s : string) :
  (String.length s <= k1)%nat → (String.length s <= k2)%nat →
  indexFunc_loop k1 s f truth = indexFunc_loop k2 s f truth.
Proof.
  revert k2 s; induction k1 as [|k1 IH]; intros k2 s H1 H2.
  - destruct s; [|simpl in H1; lia]. now destruct k2.
  - destruct k2 as [|k2].
    { destruct s; [reflexivity | simpl in H2; lia]. }
    destruct s as [|c s]; [reflexivity|].
    cbn [indexFunc_loop].
    pose proof (DecodeRune_width (String c s) ltac:(discriminate)) as Hw.
    destruct (DecodeRuneInString (String c s)) as [r w]. simpl snd in Hw.
    destruct (Bool.eqb (f r) truth); [reflexivity|].
    rewrite (IH k2); [reflexivity| |]; rewrite str_length_drop; simpl in *; lia.
Qed.

Lemma indexFunc_unfold (f : N → bool) (truth : bool) (s : string) :
  s ≠ "" →
  indexFunc s f truth =
    let '(r, w) := DecodeRuneInString s in
    if Bool.eqb (f r) truth then Some 0%nat
    else (λ i, (w + i)%nat) <$> indexFunc (str_drop w s) f truth.
Proof.
  intros Hs. destruct s as [|c s]; [congruence|].
  unfold indexFunc at 1. cbn [String.length indexFunc_loop].
  pose proof (DecodeRune_width (String c s) ltac:(discriminate)) as Hw.
  destruct (DecodeRuneInString (String c s)) as [r w]. simpl snd in Hw.
  destruct (Bool.eqb (f r) truth); [reflexivity|].
  unfold indexFunc. f_equal. apply indexFunc_loop_fuel; [|lia].
  rewrite str_length_drop. simpl in *. lia.
Qed.


Lemma indexFunc_lt (f : N → bool) (truth : bool) (s : string) (i : nat) :
  indexFunc s f truth = Some i → (i < String.length s)%nat.
Proof.
  remember (String.length s) as n eqn:Hn.
  assert (String.length s <= n)%nat as Hle by lia. clear Hn.
  intros H. enough (i < String.length s)%nat by lia. revert s i Hle H.
  induction n as [|n IH]; intros s i Hle.
  - destruct s; [discriminate | simpl in Hle; lia].
  - destruct s as [|c s]; [discriminate|].
    rewrite indexFunc_unfold by discriminate.
    pose proof (DecodeRune_width (String c s) ltac:(discriminate)) as Hw.
    destruct (DecodeRuneInString (String c s)) as [r w]. simpl snd in Hw.
    destruct (Bool.eqb (f r) truth).
    + intros [= <-]. simpl. lia.
    + destruct (indexFunc (str_drop w (String c s)) f truth) as [j|] eqn:E;
        [|discriminate].
      intros [= <-]. apply IH in E.
      * rewrite str_length_drop in E. lia.
      * rewrite str_length_drop. simpl in *. lia.
Qed.

Lemma TrimLeftFunc_space_cons (c : ascii) (s : string) :
  asciiSpace c = true →
  TrimLeftFunc (String c s) Unicode.IsSpace = TrimLeftFunc s Unicode.IsSpace.
Proof.
  intros [Hc Hsp]%asciiSpace_spec. unfold TrimLeftFunc.
  rewrite indexFunc_unfold by discriminate.
  rewrite (DecodeRune_ascii _ _ Hc), Hsp. simpl.
  now destruct (indexFunc s Unicode.IsSpace false).
Qed.

Lemma TrimLeftFunc_space_app (p s : string) :
  str_forall asciiSpace p = true →
  TrimLeftFunc (p ++ s) Unicode.IsSpace = TrimLeftFunc s Unicode.IsSpace.
Proof.
  induction p as [|c p IH]; simpl; [reflexivity|].
  intros [Hc Hp]%andb_true_iff. rewrite TrimLeftFunc_space_cons by exact Hc. auto.
Qed.

Lemma indexFunc_app_space (s q : string) :
  str_forall asciiSpace q = true →
  indexFunc (s ++ q) Unicode.IsSpace false = indexFunc s Unicode.IsSpace false.
Proof.
  intros Hq.
  remember (String.length s) as n eqn:Hn.
  assert (String.length s <= n)%nat as Hle by lia. clear Hn. revert s Hle.
  induction n as [|n IH]; intros s Hle.
  - destruct s; [|simpl in Hle; lia]. simpl.
    change (indexFunc "" Unicode.IsSpace false) with (@None nat).
    pose proof (TrimLeftFunc_space_app q "" Hq) as H.
    rewrite str_app_nil_r in H. unfold TrimLeftFunc in H.
    change (indexFunc "" Unicode.IsSpace false) with (@None nat) in H.
    destruct (indexFunc q Unicode.IsSpace false) as [i|] eqn:E; [|reflexivity].
    apply indexFunc_lt in E as Hi.
    assert (String.length (str_drop i q) = 0)%nat as Hlen by now rewrite H.
    rewrite str_length_drop in Hlen. lia.
  - destruct q as [|c q]; [now rewrite str_app_nil_r|].
    destruct s as [|c0 s]; [apply (IH ""); simpl; lia|].
    simpl in Hq. apply andb_true_iff in Hq as [Hc Hq'].
    apply asciiSpace_spec in Hc as [Hc _].
    rewrite (indexFunc_unfold _ _ (String c0 s ++ String c q)) by discriminate.
    rewrite (indexFunc_unfold _ _ (String c0 s)) by discriminate.
    rewrite DecodeRune_app_ascii by (discriminate || exact Hc).
    pose proof (DecodeRune_width (String c0 s) ltac:(discriminate)) as Hw.
    destruct (DecodeRuneInString (String c0 s)) as [r w]. simpl snd in Hw.
    destruct (Bool.eqb _ false); [reflexivity|].
    rewrite str_drop_app_le by lia.
    rewrite IH; [reflexivity|]. rewrite str_length_drop. simpl in *. lia.
Qed.

Lemma TrimLeftFunc_app_space (s q : string) :
  str_forall asciiSpace q = true →
  TrimLeftFunc (s ++ q) Unicode.IsSpace =
    match indexFunc s Unicode.IsSpace false with
    | None => ""
    | Some i => str_drop i s ++ q
    end.
Proof.
  intros Hq. unfold TrimLeftFunc. rewrite indexFunc_app_space by exact Hq.
  destruct (indexFunc s Unicode.IsSpace false) as [i|] eqn:E; [|reflexivity].
  apply indexFunc_lt in E. apply str_drop_app_le. lia.
Qed.

Lemma lastIndexFunc_loop_app (f : N → bool) (truth : bool) (k : nat) (s t : string) (i : nat) :
  (i <= String.length s)%nat →
  lastIndexFunc_loop k (s ++ t) i f truth = lastIndexFunc_loop k s i f truth.
Proof.
  revert i; induction k as [|k IH]; intros i Hi; [reflexivity|].
  cbn [lastIndexFunc_loop]. destruct (i =? 0)%nat; [reflexivity|].
  rewrite str_take_app_le by exact Hi.
  destruct (DecodeLastRuneInString (str_take i s)) as [r size].
  destruct (Bool.eqb (f r) truth); [reflexivity|]. apply IH. lia.
Qed.

Lemma lastIndexFunc_loop_lt (f : N → bool) (truth : bool) (k : nat) (s : string) (i j : nat) :
  (i <= String.length s)%nat →
  lastIndexFunc_loop k s i f truth = Some j → (j < i)%nat.
Proof.
  revert i; induction k as [|k IH]; intros i Hi; [discriminate|].
  cbn [lastIndexFunc_loop]. destruct (i =? 0)%nat eqn:E; [discriminate|].
  apply Nat.eqb_neq in E.
  pose proof (DecodeLastRune_width (str_take i s)) as Hw.
  rewrite str_length_take in Hw by exact Hi.
  destruct (DecodeLastRuneInString (str_take i s)) as [r size]. simpl snd in Hw.
  assert (1 <= size <= i)%nat as Hsize.
  { apply Hw. intros Hnil. apply (f_equal String.length) in Hnil.
    rewrite str_length_take in Hnil by exact Hi. simpl in Hnil. lia. }
  destruct (Bool.eqb (f r) truth).
  - intros [= <-]. lia.
  - intros H. apply IH in H; lia.
Qed.

Lemma lastIndexFunc_lt (f : N → bool) (truth : bool) (s : string) (j : nat) :
  lastIndexFunc s f truth = Some j → (j < String.length s)%nat.
Proof. apply lastIndexFunc_loop_lt. lia. Qed.

Lemma TrimRightFunc_space_snoc (s : string) (c : ascii) :
  asciiSpace c = true →
  TrimRightFunc (s ++ String c "") Unicode.IsSpace = TrimRightFunc s Unicode.IsSpace.
Proof.
  intros [Hc Hsp]%asciiSpace_spec.
  assert (lastIndexFunc (s ++ String c "") Unicode.IsSpace false
          = lastIndexFunc s Unicode.IsSpace false) as Hidx.
  { unfold lastIndexFunc. rewrite str_length_app. simpl String.length.
    replace (String.length s + 1)%nat with (S (String.length s)) by lia.
    cbn [lastIndexFunc_loop]. cbn [Nat.eqb].
    replace (S (String.length s)) with (String.length (s ++ String c "")) at 1
      by (rewrite str_length_app; simpl; lia).
    rewrite str_take_all, (DecodeLastRune_ascii _ _ Hc), Hsp. cbn [Bool.eqb].
    replace (S (String.length s) - 1)%nat with (String.length s) by lia.
    apply lastIndexFunc_loop_app. lia. }
  unfold TrimRightFunc. rewrite Hidx.
  destruct (lastIndexFunc s Unicode.IsSpace false) as [j|] eqn:E; [|reflexivity].
  apply lastIndexFunc_lt in E.
  rewrite byte_at_app_l by exact E.
  destruct (RuneSelf <=? byte_at s j)%N.
  - rewrite str_drop_app_le by lia.
    assert (str_drop j s ≠ "") as Hne.
    { intros Hnil. apply (f_equal String.length) in Hnil.
      rewrite str_length_drop in Hnil. simpl in Hnil. lia. }
    rewrite DecodeRune_app_ascii by assumption.
    pose proof (DecodeRune_width _ Hne) as Hw. rewrite str_length_drop in Hw.
    destruct (DecodeRuneInString (str_drop j s)) as [r wid]. simpl snd in Hw.
    apply str_take_app_le. lia.
  - apply str_take_app_le. lia.
Qed.

Lemma TrimRightFunc_space_app (s q : string) :
  str_forall asciiSpace q = true →
  TrimRightFunc (s ++ q) Unicode.IsSpace = TrimRightFunc s Unicode.IsSpace.
Proof.
  revert s; induction q as [|c q IH]; intros s; [now rewrite str_app_nil_r|].
  simpl. intros [Hc Hq]%andb_true_iff.
  change (String c q) with (String c "" ++ q). rewrite <- str_app_assoc.
  rewrite IH by exact Hq. now apply TrimRightFunc_space_snoc.
Qed.

(** White space bytes around a line do not show after [TrimSpace]. *)
Lemma TrimSpace_padding (p s q : string) :
  str_forall asciiSpace p = true → str_forall asciiSpace q = true →
  TrimSpace (p ++ s ++ q) = TrimSpace s.
Proof.
  intros Hp Hq. unfold TrimSpace, TrimFunc.
  rewrite TrimLeftFunc_space_app by exact Hp.
  rewrite TrimLeftFunc_app_space by exact Hq.
  unfold TrimLeftFunc at 1.
  destruct (indexFunc s Unicode.IsSpace false); [|reflexivity].
  now apply TrimRightFunc_space_app.
Qed.

Lemma TrimSpace_space (p : string) :
  str_forall asciiSpace p = true → TrimSpace p = "".
Proof.
  intros Hp. pose proof (TrimSpace_padding p "" "" Hp eq_refl) as H.
  simpl in H. rewrite str_app_nil_r in H. exact H.
Qed.
Lemma readHeaders_eq (r : Reader) (hs : gmap string string) :
  readHeaders r hs =
    match ReadString r LF with
    | (_, Some err, _) => inl err
    | (line, None, r') =>
        let line := Strings.TrimSpace line in
        if String.eqb line "" then inr (hs, r')
        else
          match Strings.SplitN line ": " 2 with
          | [key; value] => readHeaders r' (<[key := value]> hs)
          | _ => inl (Errorf "malformed header line")
          end
    end.
Proof.
  rewrite readHeaders_equation_1.
  unfold readHeaders_unfold_clause_1, inspect.
  destruct (ReadString r LF) as [[line [err|]] r']; reflexivity.
Qed.

(** ** The response serializer *)

Lemma writeHeaders_writeAll (conn : Conn) (entries : list (string * string)) :
  writeHeaders conn entries = writeAll conn (map headerLine entries).
Proof.
  revert conn; induction entries as [|kv rest IH]; intros conn; [reflexivity|].
  cbn [writeHeaders writeAll map].
  destruct (Write conn (headerLine kv)) as [[e|] conn']; [reflexivity|].
  apply IH.
Qed.

Lemma writeAll_app (conn : Conn) (l1 l2 : list string) :
  writeAll conn (l1 ++ l2) =
    match writeAll conn l1 with
    | (Some e, conn') => (Some e, conn')
    | (None, conn') => writeAll conn' l2
    end.
Proof.
  revert conn; induction l1 as [|m l1 IH]; intros conn; [reflexivity|].
  cbn [writeAll app].
  destruct (Write conn m) as [[e|] conn']; [reflexivity|]. apply IH.
Qed.

Lemma writeResponse_writeAll range (conn : Conn) (res : Response) :
  writeResponse range conn res =
    writeAll conn (response_writes res (range (RHeaders res))).
Proof.
  unfold writeResponse, response_writes. cbn [writeAll].
  destruct (Write conn (statusLine (StatusCode res))) as [[e|] conn1]; [reflexivity|].
  rewrite writeAll_app, writeHeaders_writeAll.
  destruct (writeAll conn1 _) as [[e|] conn2]; [reflexivity|].
  cbn [writeAll].
  destruct (Write conn2 CRLF) as [[e|] conn3]; [reflexivity|].
  destruct (Write conn3 (RBody res)) as [[e|] conn4]; reflexivity.
Qed.

(** What a sequence of writes does, by the first failing call. *)
Lemma writeAll_spec (msgs : list string) (conn : Conn) :
  match first_failure (faults conn) (List.length msgs) with
  | Some (k, f) =>
      (writeAll conn msgs).1 = Some (OpError (wf_msg f))
      ∧ writes (writeAll conn msgs).2 = (writes conn ++ take (S k) msgs)%list
  | None =>
      (writeAll conn msgs).1 = None
      ∧ writes (writeAll conn msgs).2 = (writes conn ++ msgs)%list
      ∧ wire (writeAll conn msgs).2 = wire conn ++ str_concat msgs
      ∧ closed (writeAll conn msgs).2 = closed conn
  end.
Proof.
  revert conn; induction msgs as [|m rest IH]; intros conn.
  - simpl. rewrite app_nil_r, str_app_nil_r.
    destruct (faults conn) as [|[]]; simpl; auto.
  - cbn [List.length first_failure writeAll]. unfold Write.
    destruct (faults conn) as [|[f|] fs] eqn:Hf; cbn [first_failure fst snd tail].
    + specialize (IH {| remote_addr := remote_addr conn; incoming := incoming conn;
                        incoming_end := incoming_end conn; faults := [];
                        writes := writes conn ++ [m]; wire := wire conn ++ m;
                        closed := closed conn |}).
      cbn [faults writes wire closed] in IH.
      assert (first_failure [] (List.length rest) = None) as E by now destruct rest.
      rewrite E in IH. destruct IH as (H1 & H2 & H3 & H4).
      rewrite H1, H2, H3, H4, <- app_assoc, str_app_assoc. auto.
    + cbn [fst snd writes take]. auto.
    + specialize (IH {| remote_addr := remote_addr conn; incoming := incoming conn;
                        incoming_end := incoming_end conn; faults := fs;
                        writes := writes conn ++ [m]; wire := wire conn ++ m;
                        closed := closed conn |}).
      cbn [faults writes wire closed] in IH.
      destruct (first_failure fs (List.length rest)) as [[k f]|]; cbn [fmap option_fmap option_map fst snd].
      * destruct IH as (H1 & H2). rewrite H1, H2, <- app_assoc. auto.
      * destruct IH as (H1 & H2 & H3 & H4).
        rewrite H1, H2, H3, H4, <- app_assoc, str_app_assoc. auto.
Qed.

Lemma first_failure_none (fs : list (option write_fault)) (n : nat) :
  Forall (λ f, f = None) fs → first_failure fs n = None.
Proof.
  intros H; revert n; induction H as [|f fs -> _ IH]; intros [|n]; try reflexivity.
  simpl. now rewrite IH.
Qed.

Lemma str_concat_app (l1 l2 : list string) :
  str_concat (l1 ++ l2) = str_concat l1 ++ str_concat l2.
Proof.
  induction l1 as [|s l1 IH]; [reflexivity|].
  cbn [str_concat app]. now rewrite IH, str_app_assoc.
Qed.

(** C4: when no write fails, [writeResponse] puts on the wire the status
    line "HTTP/1.1 <code> <reason>\r\n", one line "<name>: <value>\r\n" for
    each entry of the header map (each entry once, in the order [range]
    yields them), the blank line "\r\n" and the body, and nothing after it;
    the reason is "OK", "Bad Request", "Not Found", "Internal Server Error"
    for 200, 400, 404, 500 and "Unknown Status" for any other code; the header
    lines are those of the response's own entries, so no Content-Length line
    appears that the handler did not set. *)
Theorem writeResponse_wire_format
    (range : gmap string string → list (string * string))
    (conn : Conn) (res : Response) :
  (∀ m, range m ≡ₚ map_to_list m) →
  Forall (λ f, f = None) (faults conn) →
  let out := writeResponse range conn res in
  let code := StatusCode res in
  out.1 = None
  ∧ (∃ entries : list (string * string),
       entries ≡ₚ map_to_list (RHeaders res)
       ∧ (∀ k v, (k, v) ∈ entries ↔ RHeaders res !! k = Some v)
       ∧ wire out.2 =
           wire conn ++ "HTTP/1.1 " ++ Strconv.Itoa code ++ " " ++ statusText code ++ CRLF
           ++ str_concat (map (λ kv, kv.1 ++ ": " ++ kv.2 ++ CRLF) entries)
           ++ CRLF ++ RBody res)
  ∧ statusText 200 = "OK"
  ∧ statusText 400 = "Bad Request"
  ∧ statusText 404 = "Not Found"
  ∧ statusText 500 = "Internal Server Error"
  ∧ (code ≠ 200%Z → code ≠ 400%Z → code ≠ 404%Z → code ≠ 500%Z →
     statusText code = "Unknown Status").
Proof.
  intros Hrange Hok out code. subst out.
  rewrite writeResponse_writeAll.
  pose proof (writeAll_spec (response_writes res (range (RHeaders res))) conn) as H.
  rewrite first_failure_none in H by exact Hok.
  destruct H as (H1 & _ & H3 & _).
  split; [exact H1|]. split.
  - exists (range (RHeaders res)). split; [apply Hrange|]. split.
    + intros k v. rewrite (Hrange (RHeaders res)). apply elem_of_map_to_list.
    + rewrite H3. unfold response_writes. cbn [str_concat].
      rewrite str_concat_app. cbn [str_concat]. unfold statusLine.
      rewrite str_app_nil_r. fold code. rewrite !str_app_assoc. reflexivity.
  - repeat split; try reflexivity.
    intros H200 H400 H404 H500. unfold statusText.
    repeat (destruct (_ =? _)%Z eqn:E; [apply Z.eqb_eq in E; congruence | clear E]).
    reflexivity.
Qed.

Lemma writeResponse_wire_format_witness :
  (writeResponse map_to_list (client "") hello_go).1 = None.
Proof.
  refine (proj1 (writeResponse_wire_format map_to_list (client "") hello_go _ _)).
  - intros m. reflexivity.
  - constructor.
Defined.

Example writeResponse_hello_go :
  wire (writeResponse map_to_list (client "") hello_go).2 =
    "HTTP/1.1 200 OK" ++ CRLF ++ "Content-Type: text/plain" ++ CRLF ++ CRLF
    ++ "Hello, Go!".
Proof. vm_compute. reflexivity. Qed.

(** C7: [writeResponse] calls [Write] on the status line, each header
    line, the blank line and the body, in this order.  If one of these
    calls fails, the first failing call is the last call made and its error
    is returned; the result is nil exactly when none of them fails, and
    then every one of them was made. *)
Theorem writeResponse_stops_at_first_failure
    (range : gmap string string → list (string * string))
    (conn : Conn) (res : Response) :
  let out := writeResponse range conn res in
  let msgs := response_writes res (range (RHeaders res)) in
  match first_failure (faults conn) (List.length msgs) with
  | Some (k, f) =>
      out.1 = Some (OpError (wf_msg f))
      ∧ writes out.2 = (writes conn ++ take (S k) msgs)%list
  | None =>
      out.1 = None
      ∧ writes out.2 = (writes conn ++ msgs)%list
  end.
Proof.
  intros out msgs. subst out msgs. rewrite writeResponse_writeAll.
  pose proof (writeAll_spec (response_writes res (range (RHeaders res))) conn) as H.
  destruct (first_failure _ _) as [[k f]|]; tauto.
Qed.

Example writeResponse_broken_pipe :
  writeResponse map_to_list broken_pipe hello_go =
    (Some (OpError "write: broken pipe"),
     {| remote_addr := "127.0.0.1:50000"; incoming := ""; incoming_end := PeerClosed;
        faults := [];
        writes := ["HTTP/1.1 200 OK" ++ CRLF; "Content-Type: text/plain" ++ CRLF];
        wire := "HTTP/1.1 200 OK" ++ CRLF ++ "Con";
        closed := false |}).
Proof. vm_compute. reflexivity. Qed.

(** ** The route handlers *)

(** C9: on the route /hello the answer has status 200; its body is
    "Hello, World!" when the header Name is absent or empty, and
    "Hello, <value>!" otherwise. *)
Theorem handleHello_greeting (req : Request) :
  URL req = "/hello" →
  StatusCode (handleRequest req) = 200%Z
  ∧ (Headers req !! "Name" = None ∨ Headers req !! "Name" = Some "" →
     RBody (handleRequest req) = "Hello, World!")
  ∧ (∀ value, Headers req !! "Name" = Some value → value ≠ "" →
     RBody (handleRequest req) = "Hello, " ++ value ++ "!").
Proof.
  intros Hurl. unfold handleRequest. rewrite Hurl.
  change ("/hello" =? "/")%string with false.
  change ("/hello" =? "/hello")%string with true. cbv iota.
  unfold handleHello. cbn [StatusCode RBody].
  split; [reflexivity|]. split.
  - intros [-> | ->]; reflexivity.
  - intros value -> Hne. cbn [default]. unfold id.
    destruct (String.eqb_spec value ""); [congruence | reflexivity].
Qed.

Lemma handleHello_greeting_witness :
  RBody (handleRequest hello_request) = "Hello, Go!".
Proof.
  refine (proj2 (proj2 (handleHello_greeting hello_request _)) "Go" _ _).
  - reflexivity.
  - reflexivity.
  - discriminate.
Defined.

(** ** The request parser *)

Lemma IndexByte_app_found (l rest : string) (c : ascii) :
  IndexByte l c = None →
  IndexByte (l ++ String c rest) c = Some (String.length l).
Proof.
  induction l as [|a l IH]; simpl.
  - now rewrite Ascii.eqb_refl.
  - destruct (Ascii.eqb a c); [discriminate|].
    destruct (IndexByte l c); [discriminate|]. intros _. now rewrite IH.
Qed.

(** Reading a line that is terminated by a line feed. *)
Lemma ReadString_line (l rest : string) (e : stream_end) :
  IndexByte l LF = None →
  ReadString {| rd_buf := terminated l ++ rest; rd_end := e |} LF =
    (terminated l, None, {| rd_buf := rest; rd_end := e |}).
Proof.
  intros Hl. unfold ReadString, terminated. cbn [rd_buf rd_end].
  rewrite str_app_assoc. cbn [String.append].
  rewrite (IndexByte_app_found _ _ _ Hl).
  replace (S (String.length l)) with (String.length (l ++ String LF "")) at 1 2
    by (rewrite str_length_app; simpl; lia).
  change (l ++ String LF rest) with (l ++ (String LF "" ++ rest)).
  rewrite <- str_app_assoc, str_take_length_app, str_drop_length_app. reflexivity.
Qed.

(** Without a line feed in the stream there is no line to read. *)
Lemma ReadString_no_line (r : Reader) :
  IndexByte (rd_buf r) LF = None →
  ReadString r LF = (rd_buf r, Some (end_error (rd_end r)), {| rd_buf := ""; rd_end := rd_end r |}).
Proof. intros H. unfold ReadString. now rewrite H. Qed.

Lemma ReadString_rd_end (r r' : Reader) (line : string) (err : option error) :
  ReadString r LF = (line, err, r') → rd_end r' = rd_end r.
Proof.
  unfold ReadString. destruct (IndexByte _ _); intros [= <- <- <-]; reflexivity.
Qed.

(** The errors of the header loop: a malformed header line, or the end of
    the stream. *)
Lemma readHeaders_errors (r : Reader) (hs : gmap string string) (e : error) :
  readHeaders r hs = inl e →
  e = Errorf "malformed header line" ∨ e = end_error (rd_end r).
Proof.
  remember (String.length (rd_buf r)) as n eqn:Hn.
  assert (String.length (rd_buf r) <= n)%nat as Hle by lia. clear Hn.
  revert r hs Hle. induction n as [|n IH]; intros r hs Hle;
    rewrite readHeaders_eq;
    destruct (ReadString r LF) as [[line [err|]] r'] eqn:Hread.
  - unfold ReadString in Hread. destruct (IndexByte _ _); [discriminate|].
    injection Hread as <- <- <-. intros [= <-]. now right.
  - apply ReadString_shrinks in Hread. lia.
  - unfold ReadString in Hread. destruct (IndexByte _ _); [discriminate|].
    injection Hread as <- <- <-. intros [= <-]. now right.
  - cbv zeta. destruct (String.eqb _ ""); [discriminate|].
    pose proof (ReadString_rd_end _ _ _ _ Hread) as Hend.
    apply ReadString_shrinks in Hread.
    destruct (Strings.SplitN _ _ _) as [|k [|v [|? ?]]];
      try (intros [= <-]; now left).
    intros H. apply IH in H; [|lia]. now rewrite <- Hend.
Qed.

(** The results of reading the body, by the declared length. *)
Lemma readBody_out_of_bounds (reader : Reader) (b : Buffer) (length : Z) :
  (length < 0 ∨ Z.of_nat (String.length (buf_data b)) < length)%Z →
  readBody reader b length = (Panic "runtime error: slice bounds out of range", b).
Proof.
  intros H. unfold readBody, slice_to.
  destruct ((0 <=? length)%Z && (length <=? _)%Z) eqn:E; [|reflexivity].
  apply andb_true_iff in E as [E1 E2]. lia.
Qed.

Lemma readBody_complete (reader : Reader) (b : Buffer) (length : Z) :
  (0 <= length <= Z.of_nat (String.length (buf_data b)))%Z →
  (Z.to_nat length <= String.length (rd_buf reader))%nat →
  (readBody reader b length).1 = Return (str_take (Z.to_nat length) (rd_buf reader)).
Proof.
  intros Hb Hin. unfold readBody, slice_to.
  destruct ((0 <=? length)%Z && (length <=? _)%Z) eqn:E.
  2:{ apply andb_false_iff in E as [E|E]; lia. }
  unfold ReadFull. rewrite str_length_take by lia.
  apply Nat.leb_le in Hin. rewrite Hin. reflexivity.
Qed.

Lemma readBody_short (reader : Reader) (b : Buffer) (length : Z) :
  (0 <= length <= Z.of_nat (String.length (buf_data b)))%Z →
  (String.length (rd_buf reader) < Z.to_nat length)%nat →
  (readBody reader b length).1 =
    Fail (match rd_end reader with
          | PeerClosed =>
              if (String.length (rd_buf reader) =? 0)%nat then EOF else ErrUnexpectedEOF
          | ReadFails msg => OpError msg
          end).
Proof.
  intros Hb Hin. unfold readBody, slice_to.
  destruct ((0 <=? length)%Z && (length <=? _)%Z) eqn:E.
  2:{ apply andb_false_iff in E as [E|E]; lia. }
  unfold ReadFull. rewrite str_length_take by lia.
  apply Nat.leb_gt in Hin. rewrite Hin. reflexivity.
Qed.


Lemma readBody_buf_id (reader : Reader) (b : Buffer) (length : Z) :
  buf_id (readBody reader b length).2 = buf_id b.
Proof.
  unfold readBody. destruct (slice_to _ _) as [view|]; [|reflexivity].
  destruct (ReadFull reader view) as [[bytes [e|]] r]; reflexivity.
Qed.

(** [parseRequest], stage by stage. *)
Lemma parseRequest_no_request_line (pool : Pool) (conn : Conn) :
  IndexByte (incoming conn) LF = None →
  parseRequest pool conn = (Fail (end_error (incoming_end conn)), pool).
Proof.
  intros H. unfold parseRequest.
  rewrite (ReadString_no_line (NewReader conn) H). reflexivity.
Qed.

Lemma parseRequest_request_line (pool : Pool) (conn : Conn) (line : string) (r1 : Reader) :
  ReadString (NewReader conn) LF = (line, None, r1) →
  List.length (Strings.Split (Strings.TrimSpace line) " ") ≠ 3%nat →
  parseRequest pool conn = (Fail (Errorf "malformed request line"), pool).
Proof.
  intros Hread Hparts. unfold parseRequest. rewrite Hread.
  apply Nat.eqb_neq in Hparts. now rewrite Hparts.
Qed.

Lemma parseRequest_header_error (pool : Pool) (conn : Conn) (line : string)
    (r1 : Reader) (e : error) :
  ReadString (NewReader conn) LF = (line, None, r1) →
  List.length (Strings.Split (Strings.TrimSpace line) " ") = 3%nat →
  readHeaders r1 ∅ = inl e →
  parseRequest pool conn = (Fail e, pool).
Proof.
  intros Hread Hparts Hhs. unfold parseRequest. rewrite Hread, Hparts, Hhs.
  reflexivity.
Qed.

Lemma parseRequest_after_headers (pool : Pool) (conn : Conn) (line : string)
    (r1 r2 : Reader) (method url version : string) (headers : gmap string string) :
  ReadString (NewReader conn) LF = (line, None, r1) →
  Strings.Split (Strings.TrimSpace line) " " = [method; url; version] →
  readHeaders r1 ∅ = inr (headers, r2) →
  parseRequest pool conn =
    match headers !! "Content-Length" with
    | Some contentLength =>
        match Strconv.Atoi contentLength with
        | None => (Fail (Errorf "invalid Content-Length"), pool)
        | Some length =>
            let read := readBody r2 (Get pool).1 length in
            (match read.1 with
             | Return body =>
                 Return {| Method := method; URL := url;
                           Headers := headers; Body := body |}
             | Fail e => Fail e
             | Panic msg => Panic msg
             end, Put (Get pool).2 read.2)
        end
    | None =>
        (Return {| Method := method; URL := url; Headers := headers; Body := "" |},
         pool)
    end.
Proof.
  intros Hread Hparts Hhs. unfold parseRequest. rewrite Hread, Hparts, Hhs.
  cbn [List.length Nat.eqb negb nth].
  destruct (headers !! "Content-Length") as [cl|]; [|reflexivity].
  destruct (Strconv.Atoi cl) as [n|]; [|reflexivity].
  destruct (Get pool) as [b pool1]. cbn [fst snd].
  destruct (readBody r2 b n) as [[body|e|msg] b']; reflexivity.
Qed.

Lemma Get_history (pool : Pool) :
  history (Get pool).2 = (history pool ++ [EvGet (buf_id (Get pool).1)])%list.
Proof. unfold Get. destruct (idle pool); reflexivity. Qed.

(** C8: the calls that [parseRequest] makes on the pool are none at all
    (and the pool is untouched), or one [Get] followed by one [Put] of the
    buffer that [Get] returned; the latter whenever the header
    Content-Length is present and parses as an integer, whatever the exit:
    a request, an error of the body read, or a panic. *)
Theorem parseRequest_releases_buffer (pool : Pool) (conn : Conn) :
  let out := parseRequest pool conn in
  let id := buf_id (Get pool).1 in
  (out.2 = pool
   ∨ (history out.2 = history pool ++ [EvGet id; EvPut id]
      ∧ ∃ data, idle out.2 = {| buf_id := id; buf_data := data |} :: idle (Get pool).2))%list
  ∧ (∀ line r1 r2 headers contentLength length,
       ReadString (NewReader conn) LF = (line, None, r1) →
       List.length (Strings.Split (Strings.TrimSpace line) " ") = 3%nat →
       readHeaders r1 ∅ = inr (headers, r2) →
       headers !! "Content-Length" = Some contentLength →
       Strconv.Atoi contentLength = Some length →
       history out.2 = history pool ++ [EvGet id; EvPut id]
       ∧ ∃ data, idle out.2 = {| buf_id := id; buf_data := data |} :: idle (Get pool).2)%list.
Proof.
  intros out id.
  assert (∀ r2 length,
    let read := readBody r2 (Get pool).1 length in
    history (Put (Get pool).2 read.2) = (history pool ++ [EvGet id; EvPut id])%list
    ∧ ∃ data, idle (Put (Get pool).2 read.2)
              = {| buf_id := id; buf_data := data |} :: idle (Get pool).2) as Hput.
  { intros r2 length read. unfold Put. cbn [history idle]. split.
    - rewrite Get_history, <- app_assoc. subst read id.
      now rewrite readBody_buf_id.
    - exists (buf_data read.2). subst read id.
      rewrite <- (readBody_buf_id r2 (Get pool).1 length).
      now destruct (readBody r2 (Get pool).1 length).2. }
  split.
  - subst out.
    destruct (ReadString (NewReader conn) LF) as [[line [e|]] r1] eqn:Hread.
    { left. unfold parseRequest. now rewrite Hread. }
    destruct (Strings.Split (Strings.TrimSpace line) " ") as [|m [|u [|v [|? ?]]]] eqn:Hparts;
      try (left; erewrite parseRequest_request_line; [reflexivity|exact Hread|];
           rewrite Hparts; simpl; lia).
    destruct (readHeaders r1 ∅) as [e|[headers r2]] eqn:Hhs.
    { left. erewrite parseRequest_header_error; [reflexivity|exact Hread| |exact Hhs].
      now rewrite Hparts. }
    rewrite (parseRequest_after_headers _ _ _ _ _ _ _ _ _ Hread Hparts Hhs).
    destruct (headers !! "Content-Length") as [cl|]; [|now left].
    destruct (Strconv.Atoi cl) as [n|]; [|now left].
    right. cbn [snd]. apply Hput.
  - intros line r1 r2 headers cl n Hread Hparts Hhs Hcl Hn. subst out.
    destruct (Strings.Split (Strings.TrimSpace line) " ") as [|m [|u [|v [|? ?]]]] eqn:Hsplit;
      try discriminate.
    rewrite (parseRequest_after_headers _ _ _ _ _ _ _ _ _ Hread Hsplit Hhs), Hcl, Hn.
    cbn [snd]. apply Hput.
Qed.

Lemma parseRequest_releases_buffer_witness :
  (history (parseRequest new_pool short_body).2 = [EvGet 0; EvPut 0]
   ∧ ∃ data, idle (parseRequest new_pool short_body).2
             = [{| buf_id := 0; buf_data := data |}])%nat.
Proof.
  refine (proj2 (parseRequest_releases_buffer new_pool short_body)
            ("POST / HTTP/1.1" ++ CRLF)
            {| rd_buf := "Content-Length: 5" ++ CRLF ++ CRLF ++ "hel"; rd_end := PeerClosed |}
            {| rd_buf := "hel"; rd_end := PeerClosed |}
            {[ "Content-Length" := "5" ]} "5" 5%Z _ _ _ _ _).
  - vm_compute. reflexivity.
  - vm_compute. reflexivity.
  - vm_compute. reflexivity.
  - vm_compute. reflexivity.
  - vm_compute. reflexivity.
Defined.

Example parseRequest_short_body :
  (parseRequest new_pool short_body).1 = Fail ErrUnexpectedEOF.
Proof. vm_compute. reflexivity. Qed.

(** What [parseRequest] does to the pool: nothing, or [Get] and then [Put]
    of the buffer as the body read left it. *)
Lemma parseRequest_pool_cases (pool : Pool) (conn : Conn) :
  (parseRequest pool conn).2 = pool
  ∨ ∃ r2 length,
      (parseRequest pool conn).2 = Put (Get pool).2 (readBody r2 (Get pool).1 length).2.
Proof.
  destruct (ReadString (NewReader conn) LF) as [[line [e|]] r1] eqn:Hread.
  { left. unfold parseRequest. now rewrite Hread. }
  destruct (Strings.Split (Strings.TrimSpace line) " ") as [|m [|u [|v [|? ?]]]] eqn:Hparts;
    try (left; erewrite parseRequest_request_line; [reflexivity|exact Hread|];
         rewrite Hparts; simpl; lia).
  destruct (readHeaders r1 ∅) as [e|[headers r2]] eqn:Hhs.
  { left. erewrite parseRequest_header_error; [reflexivity|exact Hread| |exact Hhs].
    now rewrite Hparts. }
  rewrite (parseRequest_after_headers _ _ _ _ _ _ _ _ _ Hread Hparts Hhs).
  destruct (headers !! "Content-Length") as [cl|]; [|now left].
  destruct (Strconv.Atoi cl) as [n|]; [|now left].
  right. exists r2, n. reflexivity.
Qed.

Lemma str_repeat_length (c : ascii) (n : nat) : String.length (str_repeat c n) = n.
Proof. induction n as [|n IH]; [reflexivity|]. cbn [str_repeat String.length]. now rewrite IH. Qed.

Lemma Get_capacity (pool : Pool) :
  pool_ok pool → String.length (buf_data (Get pool).1) = poolCapacity.
Proof.
  unfold pool_ok, Get. destruct (idle pool) as [|b rest]; intros H.
  - apply str_repeat_length.
  - now apply Forall_cons in H as [H _].
Qed.

Lemma readBody_capacity (reader : Reader) (b : Buffer) (length : Z) :
  String.length (buf_data (readBody reader b length).2) = String.length (buf_data b).
Proof.
  unfold readBody, slice_to.
  destruct ((0 <=? length)%Z && (length <=? _)%Z) eqn:E; [|reflexivity].
  apply andb_true_iff in E as [E1 E2]. apply Z.leb_le in E1, E2.
  assert (String.length (ReadFull reader (str_take (Z.to_nat length) (buf_data b))).1.1
          = Z.to_nat length) as Hlen.
  { unfold ReadFull. rewrite str_length_take by lia.
    destruct (_ <=? _)%nat eqn:Hin; cbn [fst].
    - apply Nat.leb_le in Hin. now rewrite str_length_take.
    - apply Nat.leb_gt in Hin.
      rewrite str_length_app, str_length_drop, str_length_take by lia. lia. }
  destruct (ReadFull reader _) as [[bytes err] r]. cbn [fst] in Hlen.
  assert (String.length (bytes ++ str_drop (String.length bytes) (buf_data b))
          = String.length (buf_data b)) as Hdata
    by (rewrite str_length_app, str_length_drop; lia).
  destruct err; exact Hdata.
Qed.

(** X16: the body stage of [parseRequest] once the header Content-Length
    has parsed as [length]: a panic outside the capacity of the pooled buffer,
    otherwise the announced bytes, or an error of the stream when fewer
    arrive. *)
Lemma parseRequest_body (pool : Pool) (conn : Conn) (line : string)
    (r1 r2 : Reader) (method url version : string) (headers : gmap string string)
    (contentLength : string) (length : Z) :
  pool_ok pool →
  ReadString (NewReader conn) LF = (line, None, r1) →
  Strings.Split (Strings.TrimSpace line) " " = [method; url; version] →
  readHeaders r1 ∅ = inr (headers, r2) →
  headers !! "Content-Length" = Some contentLength →
  Strconv.Atoi contentLength = Some length →
  (parseRequest pool conn).1 =
    if ((length <? 0) || (Z.of_nat poolCapacity <? length))%Z then
      Panic "runtime error: slice bounds out of range"
    else if (Z.to_nat length <=? String.length (rd_buf r2))%nat then
      Return {| Method := method; URL := url; Headers := headers;
                Body := str_take (Z.to_nat length) (rd_buf r2) |}
    else
      Fail (match rd_end r2 with
            | PeerClosed =>
                if (String.length (rd_buf r2) =? 0)%nat then EOF else ErrUnexpectedEOF
            | ReadFails msg => OpError msg
            end).
Proof.
  intros Hpool Hread Hparts Hhs Hcl Hn.
  rewrite (parseRequest_after_headers _ _ _ _ _ _ _ _ _ Hread Hparts Hhs), Hcl, Hn.
  cbn [fst]. pose proof (Get_capacity pool Hpool) as Hcap.
  destruct ((length <? 0) || (Z.of_nat poolCapacity <? length))%Z eqn:E.
  - rewrite readBody_out_of_bounds; [reflexivity|]. rewrite Hcap.
    apply orb_true_iff in E as [E|E]; apply Z.ltb_lt in E; lia.
  - apply orb_false_iff in E as [E1 E2]. apply Z.ltb_ge in E1, E2.
    destruct (Z.to_nat length <=? String.length (rd_buf r2))%nat eqn:Hin.
    + apply Nat.leb_le in Hin. rewrite readBody_complete; [reflexivity| |exact Hin].
      rewrite Hcap. lia.
    + apply Nat.leb_gt in Hin. rewrite readBody_short; [reflexivity| |exact Hin].
      rewrite Hcap. lia.
Qed.

(** X17: [parseRequest] keeps the capacity of the pooled buffers: every
    idle buffer still has 4096 bytes afterwards. *)
Lemma parseRequest_pool_ok (pool : Pool) (conn : Conn) :
  pool_ok pool → pool_ok (parseRequest pool conn).2.
Proof.
  intros Hpool.
  destruct (parseRequest_pool_cases pool conn) as [-> | (r2 & length & ->)];
    [exact Hpool|].
  unfold pool_ok, Put. cbn [idle]. constructor.
  - rewrite readBody_capacity. now apply Get_capacity.
  - unfold pool_ok, Get in *. destruct (idle pool) as [|b rest]; cbn [snd idle].
    + constructor.
    + now apply Forall_cons in Hpool as [_ H].
Qed.

(** C1, at a declared length above the capacity of the pooled buffer: the
    4097 bytes of the body are all there, and [parseRequest] panics in the
    slice expression instead of reading them. *)
Theorem parseRequest_body_beyond_capacity :
  (parseRequest new_pool large_body).1
  = Panic "runtime error: slice bounds out of range".
Proof. vm_compute. reflexivity. Qed.

(** Within the capacity the body is read as announced: exactly the declared
    number of bytes, or an error of the stream when fewer arrive. *)
Example parseRequest_body_exact :
  (parseRequest new_pool
     (client ("POST / HTTP/1.1" ++ CRLF ++ "Content-Length: 5" ++ CRLF ++ CRLF
              ++ "helloworld"))).1
  = Return {| Method := "POST"; URL := "/";
              Headers := {[ "Content-Length" := "5" ]}; Body := "hello" |}.
Proof. vm_compute. reflexivity. Qed.

Example parseRequest_body_full_buffer :
  match (parseRequest new_pool
     (client ("POST / HTTP/1.1" ++ CRLF ++ "Content-Length: 4096" ++ CRLF ++ CRLF
              ++ str_repeat "a" 4096))).1 with
  | Return req => Body req = str_repeat "a" 4096
  | _ => False
  end.
Proof. vm_compute. reflexivity. Qed.

(** C2, at the value "-1": [strconv.Atoi] accepts it, and [parseRequest]
    panics in the slice expression instead of returning an error. *)
Theorem parseRequest_negative_content_length :
  Strconv.Atoi "-1" = Some (-1)%Z
  ∧ (parseRequest new_pool negative_length).1
    = Panic "runtime error: slice bounds out of range".
Proof. split; vm_compute; reflexivity. Qed.

(** A value that is not a number is refused with an error. *)
Lemma parseRequest_invalid_content_length (pool : Pool) (conn : Conn) (line : string)
    (r1 r2 : Reader) (headers : gmap string string) (contentLength : string) :
  ReadString (NewReader conn) LF = (line, None, r1) →
  List.length (Strings.Split (Strings.TrimSpace line) " ") = 3%nat →
  readHeaders r1 ∅ = inr (headers, r2) →
  headers !! "Content-Length" = Some contentLength →
  Strconv.Atoi contentLength = None →
  parseRequest pool conn = (Fail (Errorf "invalid Content-Length"), pool).
Proof.
  intros Hread Hparts Hhs Hcl Hn.
  destruct (Strings.Split (Strings.TrimSpace line) " ") as [|m [|u [|v [|? ?]]]] eqn:Hsplit;
    try discriminate.
  now rewrite (parseRequest_after_headers _ _ _ _ _ _ _ _ _ Hread Hsplit Hhs), Hcl, Hn.
Qed.

Example parseRequest_content_length_abc :
  parseRequest new_pool
    (client ("POST / HTTP/1.1" ++ CRLF ++ "Content-Length: abc" ++ CRLF ++ CRLF))
  = (Fail (Errorf "invalid Content-Length"), new_pool).
Proof. vm_compute. reflexivity. Qed.



(** An empty target is accepted. *)
Example parseRequest_empty_target :
  parseRequest new_pool (client ("GET  HTTP/1.1" ++ CRLF ++ CRLF))
  = (Return {| Method := "GET"; URL := ""; Headers := ∅; Body := "" |}, new_pool).
Proof. vm_compute. reflexivity. Qed.

(** The version token is not looked at. *)
Example parseRequest_any_version :
  parseRequest new_pool (client ("GET / gopher" ++ CRLF ++ CRLF))
  = (Return {| Method := "GET"; URL := "/"; Headers := ∅; Body := "" |}, new_pool).
Proof. vm_compute. reflexivity. Qed.

(** ** The connection handler *)

(** C3 as stated fails: the peer closes before sending a byte, reading the
    request line fails with [io.EOF], and the handler still makes the four
    calls of [Write] of a 400 response. *)
Lemma handleConnection_read_error_gets_response :
  IndexByte (incoming (client "")) LF = None
  ∧ parseRequest new_pool (client "") = (Fail EOF, new_pool)
  ∧ handleConnection map_to_list new_pool (client "")
    = (Returned,
       {| remote_addr := "127.0.0.1:50000"; incoming := "";
          incoming_end := PeerClosed; faults := [];
          writes := ["HTTP/1.1 400 Bad Request" ++ CRLF;
                     "Content-Type: text/plain" ++ CRLF; CRLF; "Bad Request"];
          wire := bad_request_bytes;
          closed := true |},
       new_pool,
       ["Accepted connection from 127.0.0.1:50000"; "Error parsing request: EOF"]).
Proof. repeat split; vm_compute; reflexivity. Qed.

Lemma range_singleton (range : gmap string string → list (string * string))
    (k v : string) :
  (∀ m, range m ≡ₚ map_to_list m) → range {[ k := v ]} = [(k, v)].
Proof.
  intros Hrange. apply Permutation_singleton_r.
  rewrite (Hrange {[ k := v ]}), map_to_list_singleton. reflexivity.
Qed.

Lemma writeAll_first (conn : Conn) (m : string) (rest : list string) :
  ∃ more, writes (writeAll conn (m :: rest)).2 = (writes conn ++ m :: more)%list.
Proof.
  pose proof (writeAll_spec (m :: rest) conn) as H.
  destruct (first_failure _ _) as [[k f]|].
  - destruct H as [_ ->]. exists (take k rest). reflexivity.
  - destruct H as (_ & -> & _). exists rest. reflexivity.
Qed.

(** C3, amended: whenever [parseRequest] returns an error, an error of the
    stream (also before a full request line has arrived) as much as a
    syntax error, the handler returns normally after calling [Write] on the
    status line of a 400 response and closing the connection; when no write
    fails the bytes sent are the whole 400 response. *)
Theorem handleConnection_parse_failure
    (range : gmap string string → list (string * string))
    (pool : Pool) (conn : Conn) (e : error) :
  (∀ m, range m ≡ₚ map_to_list m) →
  (parseRequest pool conn).1 = Fail e →
  let out := handleConnection range pool conn in
  out.1.1.1 = Returned
  ∧ closed out.1.1.2 = true
  ∧ (∃ more,
       writes out.1.1.2 = (writes conn ++ ("HTTP/1.1 400 Bad Request" +:+ CRLF) :: more)%list)
  ∧ (Forall (λ f, f = None) (faults conn) →
     wire out.1.1.2 = wire conn ++ bad_request_bytes).
Proof.
  intros Hrange Hfail out.
  set (res := {| StatusCode := 400;
                 RHeaders := {[ "Content-Type" := "text/plain" ]};
                 RBody := "Bad Request" |}).
  assert (out.1.1.1 = Returned
          ∧ out.1.1.2 = Close (writeAll conn (response_writes res [("Content-Type", "text/plain")])).2)
    as [Hexit Hconn].
  { subst out. unfold handleConnection.
    destruct (parseRequest pool conn) as [parsed pool']. cbn [fst] in Hfail. subst parsed.
    unfold writeErrorResponse. rewrite writeResponse_writeAll.
    cbn [RHeaders]. rewrite (range_singleton range _ _ Hrange). fold res.
    destruct (writeAll conn _) as [[err|] c]; split; reflexivity. }
  rewrite Hexit, Hconn. cbn [Close closed writes wire].
  split; [reflexivity|]. split; [reflexivity|]. split.
  - apply writeAll_first.
  - intros Hok.
    pose proof (writeAll_spec (response_writes res [("Content-Type", "text/plain")]) conn) as H.
    rewrite first_failure_none in H by exact Hok.
    destruct H as (_ & _ & -> & _). reflexivity.
Qed.

Lemma handleConnection_parse_failure_witness :
  wire (handleConnection map_to_list new_pool (client "")).1.1.2 = bad_request_bytes.
Proof.
  refine (proj2 (proj2 (proj2
    (handleConnection_parse_failure map_to_list new_pool (client "") EOF _ _))) _).
  - intros m. reflexivity.
  - vm_compute. reflexivity.
  - constructor.
Defined.

(** The three exchanges of the repository's end-to-end test. *)
Example serve_root :
  wire (handleConnection map_to_list new_pool
          (client ("GET / HTTP/1.1" ++ CRLF ++ CRLF))).1.1.2
  = "HTTP/1.1 200 OK" ++ CRLF ++ "Content-Type: text/plain" ++ CRLF ++ CRLF
    ++ "Welcome to the root page!".
Proof. vm_compute. reflexivity. Qed.

Example serve_hello :
  wire (handleConnection map_to_list new_pool
          (client ("GET /hello HTTP/1.1" ++ CRLF ++ "Name: Go" ++ CRLF ++ CRLF))).1.1.2
  = "HTTP/1.1 200 OK" ++ CRLF ++ "Content-Type: text/plain" ++ CRLF ++ CRLF
    ++ "Hello, Go!".
Proof. vm_compute. reflexivity. Qed.

Example serve_not_found :
  wire (handleConnection map_to_list new_pool
          (client ("GET /notfound HTTP/1.1" ++ CRLF ++ CRLF))).1.1.2
  = "HTTP/1.1 404 Not Found" ++ CRLF ++ "Content-Type: text/plain" ++ CRLF ++ CRLF
    ++ "404 Not Found".
Proof. vm_compute. reflexivity. Qed.

(** A panic of the parser ends the handler, after the deferred [Close]. *)
Example serve_negative_length :
  (handleConnection map_to_list new_pool negative_length).1.1
  = (Panicked "runtime error: slice bounds out of range", Close negative_length).
Proof. vm_compute. reflexivity. Qed.

(** ** Header lines *)

Lemma asciiSpace_LF : str_forall asciiSpace (String LF "") = true.
Proof. reflexivity. Qed.

Lemma TrimSpace_terminated (l : string) :
  Strings.TrimSpace (terminated l) = Strings.TrimSpace l.
Proof.
  unfold terminated.
  exact (TrimSpace_padding "" l (String LF "") eq_refl asciiSpace_LF).
Qed.

(** One turn of the header loop on a line that is there in full. *)
Lemma readHeaders_line (l rest : string) (e : stream_end) (hs : gmap string string) :
  IndexByte l LF = None →
  readHeaders {| rd_buf := terminated l ++ rest; rd_end := e |} hs =
    if String.eqb (Strings.TrimSpace l) "" then inr (hs, {| rd_buf := rest; rd_end := e |})
    else
      match Strings.SplitN (Strings.TrimSpace l) ": " 2 with
      | [key; value] => readHeaders {| rd_buf := rest; rd_end := e |} (<[key := value]> hs)
      | _ => inl (Errorf "malformed header line")
      end.
Proof.
  intros Hl. rewrite readHeaders_eq, (ReadString_line _ _ _ Hl).
  cbv zeta. rewrite TrimSpace_terminated. reflexivity.
Qed.

(** [SplitN(line, ": ", 2)] cuts a non-empty line at the first colon-space. *)
Lemma SplitN_colon_space (line : string) :
  line ≠ "" →
  Strings.SplitN line ": " 2 =
    match Strings.Index line ": " with
    | Some m => [str_take m line; str_drop (m + 2) line]
    | None => [line]
    end.
Proof.
  intros Hne. unfold Strings.SplitN, Strings.genSplit.
  change (2 =? 0)%Z with false. change (": " =? "")%string with false.
  change (2 <? 0)%Z with false. cbv iota.
  destruct (Z.of_nat (String.length line) + 1 <? 2)%Z eqn:E.
  { apply Z.ltb_lt in E. destruct line; [congruence | simpl in E; lia]. }
  change (Z.to_nat (2 - 1)) with 1%nat. cbn [Strings.genSplit_loop].
  destruct (Strings.Index line ": "); reflexivity.
Qed.

Lemma readHeaders_entry (l rest : string) (e : stream_end) (hs : gmap string string) :
  IndexByte l LF = None → Strings.TrimSpace l ≠ "" →
  readHeaders {| rd_buf := terminated l ++ rest; rd_end := e |} hs =
    match header_entry (Strings.TrimSpace l) with
    | Some (key, value) =>
        readHeaders {| rd_buf := rest; rd_end := e |} (<[key := value]> hs)
    | None => inl (Errorf "malformed header line")
    end.
Proof.
  intros Hl Hne. rewrite (readHeaders_line _ _ _ _ Hl).
  destruct (String.eqb_spec (Strings.TrimSpace l) ""); [congruence|].
  rewrite (SplitN_colon_space _ Hne). unfold header_entry.
  destruct (Strings.Index _ _); reflexivity.
Qed.

Lemma readHeaders_blank (b rest : string) (e : stream_end) (hs : gmap string string) :
  IndexByte b LF = None → Strings.TrimSpace b = "" →
  readHeaders {| rd_buf := terminated b ++ rest; rd_end := e |} hs =
    inr (hs, {| rd_buf := rest; rd_end := e |}).
Proof.
  intros Hb Hblank. rewrite (readHeaders_line _ _ _ _ Hb), Hblank. reflexivity.
Qed.

Lemma lines_bytes_cons (l : string) (lines : list string) (rest : string) :
  lines_bytes (l :: lines) ++ rest = terminated l ++ lines_bytes lines ++ rest.
Proof. unfold lines_bytes. cbn [map str_concat]. apply str_app_assoc. Qed.







(** The request of the repository's parser test. *)
Example parseRequest_test_request :
  parseRequest new_pool
    (client ("GET /hello HTTP/1.1" ++ CRLF ++ "Host: localhost" ++ CRLF
             ++ "Name: Go" ++ CRLF ++ CRLF))
  = (Return {| Method := "GET"; URL := "/hello";
               Headers := <[ "Name" := "Go" ]> {[ "Host" := "localhost" ]};
               Body := "" |}, new_pool).
Proof. vm_compute. reflexivity. Qed.

Example parseRequest_header_without_colon :
  parseRequest new_pool
    (client ("GET / HTTP/1.1" ++ CRLF ++ "Host: localhost" ++ CRLF
             ++ "Name Go" ++ CRLF ++ CRLF))
  = (Fail (Errorf "malformed header line"), new_pool).
Proof. vm_compute. reflexivity. Qed.

(** ** White space around lines *)

Lemma linePad_asciiSpace (p : string) :
  str_forall linePad p = true → str_forall asciiSpace p = true.
Proof.
  induction p as [|c p IH]; [reflexivity|]. cbn [str_forall]. unfold linePad at 1.
  intros [[Hc _]%andb_true_iff Hp]%andb_true_iff. now rewrite Hc, IH.
Qed.

Lemma linePad_no_LF (p : string) :
  str_forall linePad p = true → IndexByte p LF = None.
Proof.
  induction p as [|c p IH]; [reflexivity|]. cbn [str_forall IndexByte]. unfold linePad at 1.
  intros [[_ Hc]%andb_true_iff Hp]%andb_true_iff.
  apply negb_true_iff in Hc. now rewrite Hc, IH.
Qed.

Lemma IndexByte_app_none (s t : string) (c : ascii) :
  IndexByte s c = None → IndexByte t c = None → IndexByte (s ++ t) c = None.
Proof.
  intros Hs Ht. induction s as [|a s IH]; [exact Ht|]. simpl in *.
  destruct (Ascii.eqb a c); [discriminate|].
  destruct (IndexByte s c); [discriminate|]. now rewrite IH.
Qed.


(** White space beyond ASCII is trimmed as well: a no-break space (U+00A0)
    before the line and an ideographic space (U+3000) after it. *)
Example TrimSpace_unicode :
  Strings.TrimSpace (String "194"%char (String "160"%char "Name: Go")
                     ++ String "227"%char (String "128"%char (String "128"%char CRLF)))
  = "Name: Go".
Proof. vm_compute. reflexivity. Qed.

(** A padded line trims to what the bare line trims to. *)
Lemma TrimSpace_padded (lead line trail : string) :
  str_forall linePad lead = true → str_forall linePad trail = true →
  Strings.TrimSpace (lead ++ line ++ trail) = Strings.TrimSpace line.
Proof.
  intros Hlead Htrail. apply TrimSpace_padding; now apply linePad_asciiSpace.
Qed.

(** [parseRequest] sees the request line only through [TrimSpace], and the
    rest of the stream only through the header loop. *)
Lemma parseRequest_same_request_line (pool : Pool) (conn conn' : Conn)
    (line line' : string) (r1 : Reader) :
  ReadString (NewReader conn) LF = (line, None, r1) →
  ReadString (NewReader conn') LF = (line', None, r1) →
  Strings.TrimSpace line = Strings.TrimSpace line' →
  parseRequest pool conn = parseRequest pool conn'.
Proof.
  intros H H' Htrim. unfold parseRequest. now rewrite H, H', Htrim.
Qed.

Lemma parseRequest_same_headers (pool : Pool) (conn conn' : Conn)
    (line : string) (r1 r1' : Reader) :
  ReadString (NewReader conn) LF = (line, None, r1) →
  ReadString (NewReader conn') LF = (line, None, r1') →
  readHeaders r1 ∅ = readHeaders r1' ∅ →
  parseRequest pool conn = parseRequest pool conn'.
Proof.
  intros H H' Hhs. unfold parseRequest. now rewrite H, H', Hhs.
Qed.

(** The header loop does not see the padding of a header line. *)
Lemma readHeaders_padded (before : list string) (lead line trail rest : string)
    (e : stream_end) (hs : gmap string string) :
  Forall (λ l, IndexByte l LF = None ∧ Strings.TrimSpace l ≠ "") before →
  str_forall linePad lead = true → str_forall linePad trail = true →
  IndexByte line LF = None →
  readHeaders {| rd_buf := lines_bytes before ++ terminated (lead ++ line ++ trail) ++ rest;
                 rd_end := e |} hs
  = readHeaders {| rd_buf := lines_bytes before ++ terminated line ++ rest;
                   rd_end := e |} hs.
Proof.
  intros Hbefore Hlead Htrail Hline. revert hs.
  induction Hbefore as [|l before [Hl Hne] _ IH]; intros hs.
  - unfold lines_bytes. cbn [map str_concat String.append].
    rewrite !readHeaders_line, TrimSpace_padded; try assumption; [reflexivity|].
    repeat apply IndexByte_app_none; auto using linePad_no_LF.
  - rewrite !lines_bytes_cons, !(readHeaders_entry _ _ _ _ Hl Hne).
    destruct (header_entry _) as [[k v]|]; [apply IH | reflexivity].
Qed.

(** C10: white space (spaces, tabs, carriage returns, vertical tabs, form
    feeds) before and after the request line or a header line does not
    change what [parseRequest] returns, and a header line of white space
    alone ends the header section as the empty line does. *)
Theorem parseRequest_trims_lines (pool : Pool) (conn conn' : Conn)
    (before : list string) (lead line trail rest : string) :
  Forall (λ l, IndexByte l LF = None) before →
  Forall (λ l, Strings.TrimSpace l ≠ "") (tail before) →
  str_forall linePad lead = true →
  str_forall linePad trail = true →
  IndexByte line LF = None →
  incoming conn = lines_bytes before ++ terminated (lead ++ line ++ trail) ++ rest →
  incoming conn' = lines_bytes before ++ terminated line ++ rest →
  incoming_end conn' = incoming_end conn →
  parseRequest pool conn = parseRequest pool conn'
  ∧ (∀ hs e,
       readHeaders {| rd_buf := terminated lead ++ rest; rd_end := e |} hs
       = inr (hs, {| rd_buf := rest; rd_end := e |})
       ∧ readHeaders {| rd_buf := terminated "" ++ rest; rd_end := e |} hs
         = inr (hs, {| rd_buf := rest; rd_end := e |})).
Proof.
  intros Hbefore Hheaders Hlead Htrail Hline Hin Hin' Hend. split.
  - assert (IndexByte (lead ++ line ++ trail) LF = None) as Hpadded
      by (repeat apply IndexByte_app_none; auto using linePad_no_LF).
    destruct before as [|first before].
    + eapply parseRequest_same_request_line.
      * unfold NewReader. rewrite Hin. unfold lines_bytes. cbn [map str_concat String.append].
        apply ReadString_line. exact Hpadded.
      * unfold NewReader. rewrite Hin', Hend. unfold lines_bytes.
        cbn [map str_concat String.append]. apply ReadString_line. exact Hline.
      * rewrite !TrimSpace_terminated. now apply TrimSpace_padded.
    + apply Forall_cons in Hbefore as [Hfirst Hbefore]. cbn [tail] in Hheaders.
      eapply parseRequest_same_headers.
      * unfold NewReader. rewrite Hin, lines_bytes_cons. apply ReadString_line. exact Hfirst.
      * unfold NewReader. rewrite Hin', Hend, lines_bytes_cons.
        apply ReadString_line. exact Hfirst.
      * apply readHeaders_padded; try assumption.
        clear -Hbefore Hheaders. induction Hbefore; [constructor|].
        apply Forall_cons in Hheaders as [? ?]. constructor; auto.
  - intros hs e. split; apply readHeaders_blank; try reflexivity.
    + now apply linePad_no_LF.
    + apply TrimSpace_space. now apply linePad_asciiSpace.
Qed.

Lemma parseRequest_trims_lines_witness :
  parseRequest new_pool padded_request = parseRequest new_pool bare_request.
Proof.
  refine (proj1 (parseRequest_trims_lines new_pool padded_request bare_request
                   [" " ++ TAB ++ "GET /hello HTTP/1.1 " ++ CR] "  " "Name: Go"
                   (TAB ++ " " ++ CR) CRLF
                   _ _ _ _ _ _ _ _)).
  - repeat constructor.
  - constructor.
  - reflexivity.
  - reflexivity.
  - reflexivity.
  - reflexivity.
  - reflexivity.
  - reflexivity.
Defined.

Example parseRequest_padded_request :
  parseRequest new_pool padded_request
  = (Return {| Method := "GET"; URL := "/hello";
               Headers := {[ "Name" := "Go" ]}; Body := "" |}, new_pool).
Proof. vm_compute. reflexivity. Qed.

(** A line of spaces and a tab ends the header section; what follows is
    not read as a header. *)
Example parseRequest_blank_line :
  parseRequest new_pool
    (client ("GET / HTTP/1.1" ++ CRLF ++ "  " ++ TAB ++ " " ++ CRLF
             ++ "Name: Go" ++ CRLF ++ CRLF))
  = (Return {| Method := "GET"; URL := "/"; Headers := ∅; Body := "" |}, new_pool).
Proof. vm_compute. reflexivity. Qed.

(** * Further properties *)

(** ** Further properties of the route handlers *)

(** X1: the answer of [handleRequest] depends on the request only through
    its target and its header Name: the method, the body and every other
    header are ignored. *)
Theorem handleRequest_reads_target_and_name (req req' : Request) :
  URL req = URL req' →
  Headers req !! "Name" = Headers req' !! "Name" →
  handleRequest req = handleRequest req'.
Proof.
  intros Hurl Hname. unfold handleRequest, handleHello, handleRoot.
  now rewrite Hurl, Hname.
Qed.

Lemma handleRequest_reads_target_and_name_witness :
  handleRequest {| Method := "DELETE"; URL := "/hello";
                   Headers := <[ "Host" := "localhost" ]> {[ "Name" := "Go" ]};
                   Body := "payload" |}
  = handleRequest hello_request.
Proof.
  apply handleRequest_reads_target_and_name.
  - reflexivity.
  - vm_compute. reflexivity.
Defined.

(** Every answer of [handleRequest] has the same single header. *)
Lemma handleRequest_headers (req : Request) :
  RHeaders (handleRequest req) = {[ "Content-Type" := "text/plain" ]}.
Proof.
  unfold handleRequest, handleHello, handleRoot.
  destruct (String.eqb (URL req) "/"); [reflexivity|].
  destruct (String.eqb (URL req) "/hello"); reflexivity.
Qed.

(** X2: every answer of [handleRequest] carries exactly one header,
    Content-Type: text/plain, and a non-empty body; its status is 200 on the
    targets "/" and "/hello" and 404 on every other target. *)
Theorem handleRequest_answers (req : Request) :
  RHeaders (handleRequest req) = {[ "Content-Type" := "text/plain" ]}
  ∧ RBody (handleRequest req) ≠ ""
  ∧ (StatusCode (handleRequest req) = 200%Z ∨ StatusCode (handleRequest req) = 404%Z)
  ∧ (StatusCode (handleRequest req) = 404%Z ↔ URL req ≠ "/" ∧ URL req ≠ "/hello")
  ∧ (StatusCode (handleRequest req) = 404%Z → RBody (handleRequest req) = "404 Not Found").
Proof.
  unfold handleRequest.
  destruct (String.eqb_spec (URL req) "/") as [Hroot|Hroot].
  { cbn. repeat split; try discriminate; auto. intros [? _]. congruence. }
  destruct (String.eqb_spec (URL req) "/hello") as [Hhello|Hhello].
  { unfold handleHello. cbn [RHeaders RBody StatusCode].
    repeat split; try discriminate; auto. intros [_ ?]. congruence. }
  cbn. repeat split; try discriminate; auto.
Qed.

(** ** Further properties of the connection handler *)

Lemma writeAll_keeps (msgs : list string) (conn : Conn) :
  closed (writeAll conn msgs).2 = closed conn
  ∧ incoming (writeAll conn msgs).2 = incoming conn
  ∧ incoming_end (writeAll conn msgs).2 = incoming_end conn
  ∧ remote_addr (writeAll conn msgs).2 = remote_addr conn.
Proof.
  revert conn; induction msgs as [|m rest IH]; intros conn; [auto|].
  cbn [writeAll]. destruct (Write conn m) as [[e|] c] eqn:Hw;
    unfold Write in Hw; injection Hw as _ <-.
  - cbn. auto.
  - destruct (IH {| remote_addr := remote_addr conn; incoming := incoming conn;
                    incoming_end := incoming_end conn; faults := tail (faults conn);
                    writes := writes conn ++ [m];
                    wire := wire conn ++
                      (match faults conn with
                       | Some f :: _ => (str_take (wf_sent f) m, Some (OpError (wf_msg f)))
                       | _ => (m, None)
                       end).1;
                    closed := closed conn |}) as (H1 & H2 & H3 & H4).
    rewrite H1, H2, H3, H4. cbn. auto.
Qed.

(** The connection after [handleConnection]: as the parser's outcome has it. *)
Lemma handleConnection_conn
    (range : gmap string string → list (string * string))
    (pool : Pool) (conn : Conn) :
  let out := handleConnection range pool conn in
  out.1.2 = (parseRequest pool conn).2
  ∧ match (parseRequest pool conn).1 with
    | Panic msg => out.1.1 = (Panicked msg, Close conn)
    | Fail _ =>
        out.1.1 = (Returned,
                   Close (writeResponse range conn
                            {| StatusCode := 400;
                               RHeaders := {[ "Content-Type" := "text/plain" ]};
                               RBody := "Bad Request" |}).2)
    | Return req =>
        out.1.1 = (Returned, Close (writeResponse range conn (handleRequest req)).2)
    end.
Proof.
  intros out. subst out. unfold handleConnection.
  destruct (parseRequest pool conn) as [[req|e|msg] pool']; cbn [fst snd].
  - destruct (writeResponse range conn (handleRequest req)) as [[err|] c]; auto.
  - unfold writeErrorResponse.
    destruct (writeResponse range conn _) as [[err|] c]; auto.
  - auto.
Qed.

(** X3: whatever the peer sends and whichever writes fail,
    [handleConnection] leaves the connection closed; it ends by a panic
    exactly when [parseRequest] panics, and returns otherwise. *)
Theorem handleConnection_closes
    (range : gmap string string → list (string * string))
    (pool : Pool) (conn : Conn) :
  let out := handleConnection range pool conn in
  closed out.1.1.2 = true
  ∧ incoming out.1.1.2 = incoming conn
  ∧ match (parseRequest pool conn).1 with
    | Panic msg => out.1.1.1 = Panicked msg
    | _ => out.1.1.1 = Returned
    end.
Proof.
  intros out. destruct (handleConnection_conn range pool conn) as [_ H].
  fold out in H.
  destruct (parseRequest pool conn).1 as [req|e|msg]; rewrite H; cbn [fst snd];
    rewrite ?writeResponse_writeAll; cbn [Close closed incoming];
    try (destruct (writeAll_keeps (response_writes (handleRequest req)
                     (range (RHeaders (handleRequest req)))) conn) as (_ & -> & _));
    try (match goal with |- context [writeAll conn ?m] =>
           destruct (writeAll_keeps m conn) as (_ & -> & _) end);
    auto.
Qed.



(** X5: when [parseRequest] returns a request and no write fails, the peer
    receives the answer of [handleRequest] to that request: status line,
    the header Content-Type: text/plain, the empty line, the body. *)
Theorem handleConnection_serves
    (range : gmap string string → list (string * string))
    (pool : Pool) (conn : Conn) (req : Request) :
  (∀ m, range m ≡ₚ map_to_list m) →
  (parseRequest pool conn).1 = Return req →
  Forall (λ f, f = None) (faults conn) →
  let out := handleConnection range pool conn in
  let res := handleRequest req in
  out.1.1.1 = Returned
  ∧ wire out.1.1.2 =
      wire conn ++ "HTTP/1.1 " ++ Strconv.Itoa (StatusCode res) ++ " "
      ++ statusText (StatusCode res) ++ CRLF
      ++ "Content-Type: text/plain" ++ CRLF ++ CRLF ++ RBody res
  ∧ out.2 = ["Accepted connection from " +:+ remote_addr conn].
Proof.
  intros Hrange Hparse Hok out res. subst out. unfold handleConnection.
  destruct (parseRequest pool conn) as [parsed pool']. cbn [fst] in Hparse. subst parsed.
  fold res. rewrite writeResponse_writeAll.
  pose proof (handleRequest_headers req) as Hhs. fold res in Hhs.
  rewrite Hhs, (range_singleton range _ _ Hrange).
  pose proof (writeAll_spec (response_writes res [("Content-Type", "text/plain")]) conn) as H.
  rewrite first_failure_none in H by exact Hok.
  destruct H as (H1 & _ & H3 & _).
  destruct (writeAll conn _) as [err c]. cbn [fst snd] in *. subst err.
  cbn [fst snd Close wire]. split; [reflexivity|]. split; [|reflexivity].
  rewrite H3. unfold response_writes, statusLine, headerLine.
  cbn [map app str_concat fst snd]. rewrite str_app_nil_r, !str_app_assoc. reflexivity.
Qed.

Lemma handleConnection_serves_witness :
  wire (handleConnection map_to_list new_pool
          (client ("GET /hello HTTP/1.1" ++ CRLF ++ "Name: Go" ++ CRLF ++ CRLF))).1.1.2
  = "HTTP/1.1 200 OK" ++ CRLF ++ "Content-Type: text/plain" ++ CRLF ++ CRLF
    ++ "Hello, Go!".
Proof.
  refine (proj1 (proj2 (handleConnection_serves map_to_list new_pool
            (client ("GET /hello HTTP/1.1" ++ CRLF ++ "Name: Go" ++ CRLF ++ CRLF))
            hello_request _ _ _))).
  - intros m. reflexivity.
  - vm_compute. reflexivity.
  - constructor.
Defined.

(** ** Further properties of the serializer *)

Lemma str_take_prefix (n : nat) (s : string) : ∃ rest, s = str_take n s ++ rest.
Proof.
  revert s; induction n as [|n IH]; intros s.
  - exists s. now destruct s.
  - destruct s as [|c s]; [now exists ""|].
    destruct (IH s) as [rest Hrest]. exists rest. cbn [str_take String.append].
    now rewrite <- Hrest.
Qed.

Lemma writeAll_wire_prefix (msgs : list string) (conn : Conn) :
  ∃ unsent, wire conn ++ str_concat msgs = wire (writeAll conn msgs).2 ++ unsent.
Proof.
  revert conn; induction msgs as [|m rest IH]; intros conn.
  - exists "". reflexivity.
  - cbn [writeAll str_concat]. unfold Write.
    destruct (faults conn) as [|[f|] fs]; cbn [fst snd].
    + match goal with |- context [writeAll ?c rest] => destruct (IH c) as [u Hu] end.
      cbn [wire] in Hu. exists u. now rewrite <- Hu, str_app_assoc.
    + destruct (str_take_prefix (wf_sent f) m) as [u Hu].
      exists (u ++ str_concat rest). cbn [wire].
      rewrite str_app_assoc, <- (str_app_assoc (str_take _ m)), <- Hu. reflexivity.
    + match goal with |- context [writeAll ?c rest] => destruct (IH c) as [u Hu] end.
      cbn [wire] in Hu. exists u. now rewrite <- Hu, str_app_assoc.
Qed.

(** X6: whichever write fails and however many bytes the failing write
    gets through, the bytes that [writeResponse] has sent are a prefix of
    the full response: status line, header lines, empty line, body. *)
Theorem writeResponse_sends_prefix
    (range : gmap string string → list (string * string))
    (conn : Conn) (res : Response) :
  ∃ unsent,
    wire conn ++ statusLine (StatusCode res)
    ++ str_concat (map headerLine (range (RHeaders res))) ++ CRLF ++ RBody res
    = wire (writeResponse range conn res).2 ++ unsent.
Proof.
  rewrite writeResponse_writeAll.
  destruct (writeAll_wire_prefix (response_writes res (range (RHeaders res))) conn)
    as [u Hu].
  exists u. rewrite <- Hu. unfold response_writes. cbn [str_concat].
  rewrite str_concat_app. cbn [str_concat]. now rewrite str_app_nil_r.
Qed.

Lemma writeAll_calls (msgs : list string) (conn : Conn) :
  ∃ made, writes (writeAll conn msgs).2 = (writes conn ++ made)%list
          ∧ (List.length made <= List.length msgs)%nat.
Proof.
  pose proof (writeAll_spec msgs conn) as H.
  destruct (first_failure _ _) as [[k f]|].
  - destruct H as [_ ->]. exists (take (S k) msgs). split; [reflexivity|].
    rewrite length_take. lia.
  - destruct H as (_ & -> & _). exists msgs. split; [reflexivity | lia].
Qed.

(** X7: on one connection [handleConnection] calls [Write] at most four
    times, whatever the request and whatever fails. *)
Theorem handleConnection_write_calls
    (range : gmap string string → list (string * string))
    (pool : Pool) (conn : Conn) :
  (∀ m, range m ≡ₚ map_to_list m) →
  ∃ made,
    writes (handleConnection range pool conn).1.1.2 = (writes conn ++ made)%list
    ∧ (List.length made <= 4)%nat.
Proof.
  intros Hrange. destruct (handleConnection_conn range pool conn) as [_ H].
  destruct (parseRequest pool conn).1 as [req|e|msg]; rewrite H; cbn [fst snd Close writes].
  - rewrite writeResponse_writeAll.
    rewrite (handleRequest_headers req).
    rewrite (range_singleton range _ _ Hrange). apply writeAll_calls.
  - rewrite writeResponse_writeAll. cbn [RHeaders].
    rewrite (range_singleton range _ _ Hrange). apply writeAll_calls.
  - exists []. rewrite app_nil_r. split; [reflexivity | simpl; lia].
Qed.

Lemma handleConnection_write_calls_witness :
  ∃ made,
    writes (handleConnection map_to_list new_pool broken_pipe).1.1.2 = made
    ∧ (List.length made <= 4)%nat.
Proof.
  destruct (handleConnection_write_calls map_to_list new_pool broken_pipe
              (λ m, reflexivity _)) as (made & Hw & Hlen).
  exists made. split; [exact Hw | exact Hlen].
Defined.

(** The header loop hands on the reader's end of stream. *)
Lemma readHeaders_rd_end (r r' : Reader) (hs hs' : gmap string string) :
  readHeaders r hs = inr (hs', r') → rd_end r' = rd_end r.
Proof.
  remember (String.length (rd_buf r)) as n eqn:Hn.
  assert (String.length (rd_buf r) <= n)%nat as Hle by lia. clear Hn.
  revert r hs Hle. induction n as [|n IH]; intros r hs Hle;
    rewrite readHeaders_eq;
    destruct (ReadString r LF) as [[line [err|]] r1] eqn:Hread; try discriminate.
  - apply ReadString_shrinks in Hread. lia.
  - cbv zeta. pose proof (ReadString_rd_end _ _ _ _ Hread) as Hend.
    destruct (String.eqb _ ""); [intros [= <- <-]; exact Hend|].
    apply ReadString_shrinks in Hread.
    destruct (Strings.SplitN _ _ _) as [|k [|v [|? ?]]]; try discriminate.
    intros H. apply IH in H; [|lia]. now rewrite H.
Qed.

(** ** Further properties of the parser *)


Lemma readBody_result_capacity (reader : Reader) (b b' : Buffer) (length : Z) :
  String.length (buf_data b) = String.length (buf_data b') →
  (readBody reader b length).1 = (readBody reader b' length).1.
Proof.
  intros Hcap. unfold readBody, slice_to. rewrite Hcap.
  destruct ((0 <=? length)%Z && (length <=? _)%Z) eqn:E; [|reflexivity].
  apply andb_true_iff in E as [E1 E2]. apply Z.leb_le in E1, E2.
  unfold ReadFull. rewrite !str_length_take by lia.
  destruct (_ <=? _)%nat; reflexivity.
Qed.

(** X9: what [parseRequest] returns does not depend on the pool it is
    given: the bytes left in a recycled buffer by an earlier request never
    show in the result. *)
Theorem parseRequest_ignores_pool_contents (pool pool' : Pool) (conn : Conn) :
  pool_ok pool → pool_ok pool' →
  (parseRequest pool conn).1 = (parseRequest pool' conn).1.
Proof.
  intros Hpool Hpool'.
  destruct (ReadString (NewReader conn) LF) as [[line [e|]] r1] eqn:Hread.
  { unfold parseRequest. now rewrite Hread. }
  destruct (Strings.Split (Strings.TrimSpace line) " ") as [|m [|u [|v [|? ?]]]] eqn:Hparts;
    try (rewrite !(parseRequest_request_line _ _ _ _ Hread);
         [reflexivity | rewrite Hparts; simpl; lia..]).
  destruct (readHeaders r1 ∅) as [e|[headers r2]] eqn:Hhs.
  { rewrite !(parseRequest_header_error _ _ _ _ e Hread); try reflexivity;
      try exact Hhs; now rewrite Hparts. }
  rewrite !(parseRequest_after_headers _ _ _ _ _ _ _ _ _ Hread Hparts Hhs).
  destruct (headers !! "Content-Length") as [cl|]; [|reflexivity].
  destruct (Strconv.Atoi cl) as [n|]; [|reflexivity].
  cbn [fst].
  rewrite (readBody_result_capacity r2 (Get pool).1 (Get pool').1 n); [reflexivity|].
  now rewrite !Get_capacity.
Qed.

Lemma parseRequest_ignores_pool_contents_witness :
  (parseRequest used_pool short_body).1 = (parseRequest new_pool short_body).1.
Proof.
  apply parseRequest_ignores_pool_contents.
  - repeat constructor.
  - constructor.
Defined.

(** X10: the errors of [parseRequest] are its three syntax errors and the
    errors of the stream: [io.EOF] and [io.ErrUnexpectedEOF] when the peer
    closed, the connection's own error when reading failed. *)
Theorem parseRequest_errors (pool : Pool) (conn : Conn) (e : error) :
  (parseRequest pool conn).1 = Fail e →
  e = Errorf "malformed request line"
  ∨ e = Errorf "malformed header line"
  ∨ e = Errorf "invalid Content-Length"
  ∨ (incoming_end conn = PeerClosed ∧ (e = EOF ∨ e = ErrUnexpectedEOF))
  ∨ (∃ msg, incoming_end conn = ReadFails msg ∧ e = OpError msg).
Proof.
  assert (∀ e', e' = end_error (incoming_end conn) →
    (incoming_end conn = PeerClosed ∧ (e' = EOF ∨ e' = ErrUnexpectedEOF))
    ∨ (∃ msg, incoming_end conn = ReadFails msg ∧ e' = OpError msg)) as Hend.
  { intros e' ->. destruct (incoming_end conn); eauto. }
  destruct (ReadString (NewReader conn) LF) as [[line [e0|]] r1] eqn:Hread.
  { unfold parseRequest. rewrite Hread. cbn [fst]. intros [= <-].
    unfold ReadString in Hread. destruct (IndexByte _ _); [discriminate|].
    injection Hread as _ <- _. right; right; right. now apply Hend. }
  pose proof (ReadString_rd_end _ _ _ _ Hread) as Hr1. cbn [NewReader rd_end] in Hr1.
  destruct (Strings.Split (Strings.TrimSpace line) " ") as [|m [|u [|v [|? ?]]]] eqn:Hparts;
    try (rewrite (parseRequest_request_line _ _ _ _ Hread);
         [intros [= <-]; now left | rewrite Hparts; simpl; lia]).
  destruct (readHeaders r1 ∅) as [e0|[headers r2]] eqn:Hhs.
  { rewrite (parseRequest_header_error _ _ _ _ e0 Hread); [|now rewrite Hparts|exact Hhs].
    intros [= <-]. apply readHeaders_errors in Hhs as [-> | ->]; [now right; left|].
    right; right; right. apply Hend. now rewrite Hr1. }
  rewrite (parseRequest_after_headers _ _ _ _ _ _ _ _ _ Hread Hparts Hhs).
  destruct (headers !! "Content-Length") as [cl|]; [|discriminate].
  destruct (Strconv.Atoi cl) as [n|]; [|intros [= <-]; now right; right; left].
  cbn [fst]. destruct (readBody r2 (Get pool).1 n).1 as [body|e0|msg] eqn:Hbody;
    try discriminate.
  intros [= <-]. right; right; right.
  assert (rd_end r2 = incoming_end conn) as Hr2.
  { rewrite <- Hr1. clear -Hhs. apply (readHeaders_rd_end _ _ _ _ Hhs). }
  unfold readBody in Hbody. destruct (slice_to _ _) as [view|]; [|discriminate].
  unfold ReadFull in Hbody. destruct (_ <=? _)%nat; [discriminate|].
  cbn [fst] in Hbody. injection Hbody as <-. rewrite Hr2.
  destruct (incoming_end conn); [left; split; [reflexivity|]; destruct (_ =? _)%nat; auto|].
  right. eauto.
Qed.

Lemma parseRequest_errors_witness :
  ErrUnexpectedEOF = Errorf "malformed request line"
  ∨ ErrUnexpectedEOF = Errorf "malformed header line"
  ∨ ErrUnexpectedEOF = Errorf "invalid Content-Length"
  ∨ (incoming_end short_body = PeerClosed
     ∧ (ErrUnexpectedEOF = EOF ∨ ErrUnexpectedEOF = ErrUnexpectedEOF))
  ∨ (∃ msg, incoming_end short_body = ReadFails msg ∧ ErrUnexpectedEOF = OpError msg).
Proof.
  apply (parseRequest_errors new_pool short_body ErrUnexpectedEOF).
  vm_compute. reflexivity.
Defined.

(** The header loop on a stream that ends before the empty line. *)
Lemma readHeaders_truncated (lines : list string) (partial : string) (e : stream_end)
    (hs : gmap string string) :
  Forall (λ l, IndexByte l LF = None ∧ Strings.TrimSpace l ≠ ""
               ∧ is_Some (header_entry (Strings.TrimSpace l))) lines →
  IndexByte partial LF = None →
  readHeaders {| rd_buf := lines_bytes lines ++ partial; rd_end := e |} hs
  = inl (end_error e).
Proof.
  intros Hlines Hpartial. revert hs.
  induction Hlines as [|l lines (Hl & Hne & [[k v] Hkv]) _ IH]; intros hs.
  - unfold lines_bytes. cbn [map str_concat String.append].
    rewrite readHeaders_eq, ReadString_no_line by exact Hpartial. reflexivity.
  - rewrite lines_bytes_cons, (readHeaders_entry _ _ _ _ Hl Hne), Hkv. apply IH.
Qed.

(** X11: a request that stops before the empty line, be it after the
    request line, after complete header lines or in the middle of a line,
    is not parsed: [parseRequest] returns the error of the stream. *)
Theorem parseRequest_truncated_head (pool : Pool) (conn : Conn)
    (requestLine : string) (lines : list string) (partial : string)
    (method url version : string) :
  incoming conn = terminated requestLine ++ lines_bytes lines ++ partial →
  IndexByte requestLine LF = None →
  Strings.Split (Strings.TrimSpace requestLine) " " = [method; url; version] →
  Forall (λ l, IndexByte l LF = None ∧ Strings.TrimSpace l ≠ ""
               ∧ is_Some (header_entry (Strings.TrimSpace l))) lines →
  IndexByte partial LF = None →
  parseRequest pool conn = (Fail (end_error (incoming_end conn)), pool).
Proof.
  intros Hin Hreq Hparts Hlines Hpartial.
  eapply parseRequest_header_error.
  - unfold NewReader. rewrite Hin. apply ReadString_line. exact Hreq.
  - now rewrite TrimSpace_terminated, Hparts.
  - now apply readHeaders_truncated.
Qed.

Lemma parseRequest_truncated_head_witness :
  parseRequest new_pool
    (client ("GET / HTTP/1.1" ++ CRLF ++ "Host: localhost" ++ CRLF ++ "Name: G"))
  = (Fail EOF, new_pool).
Proof.
  refine (parseRequest_truncated_head new_pool
            (client ("GET / HTTP/1.1" ++ CRLF ++ "Host: localhost" ++ CRLF ++ "Name: G"))
            ("GET / HTTP/1.1" ++ CR) ["Host: localhost" ++ CR] "Name: G"
            "GET" "/" "HTTP/1.1" eq_refl eq_refl eq_refl _ eq_refl).
  repeat constructor; vm_compute; [discriminate | eexists; reflexivity].
Defined.

(** What a returned request is made of. *)
Lemma parseRequest_returns (pool : Pool) (conn : Conn) (req : Request) :
  (parseRequest pool conn).1 = Return req →
  ∃ line r1 r2 version,
    ReadString (NewReader conn) LF = (line, None, r1)
    ∧ Strings.Split (Strings.TrimSpace line) " " = [Method req; URL req; version]
    ∧ readHeaders r1 ∅ = inr (Headers req, r2).
Proof.
  destruct (ReadString (NewReader conn) LF) as [[line [e|]] r1] eqn:Hread.
  { unfold parseRequest. now rewrite Hread. }
  destruct (Strings.Split (Strings.TrimSpace line) " ") as [|m [|u [|v [|? ?]]]] eqn:Hparts;
    try (rewrite (parseRequest_request_line _ _ _ _ Hread);
         [discriminate | rewrite Hparts; simpl; lia]).
  destruct (readHeaders r1 ∅) as [e|[headers r2]] eqn:Hhs.
  { rewrite (parseRequest_header_error _ _ _ _ e Hread); [discriminate| |exact Hhs].
    now rewrite Hparts. }
  rewrite (parseRequest_after_headers _ _ _ _ _ _ _ _ _ Hread Hparts Hhs).
  destruct (headers !! "Content-Length") as [cl|].
  2:{ intros [= <-]. exists line, r1, r2, v. auto. }
  destruct (Strconv.Atoi cl) as [n|]; [|discriminate].
  cbn [fst]. destruct (readBody r2 (Get pool).1 n).1; try discriminate.
  intros [= <-]. exists line, r1, r2, v. auto.
Qed.

(** ** Tokens and header names *)

Lemma prefix_take (sep s : string) (k : nat) :
  String.prefix sep (str_take k s) = true → String.prefix sep s = true.
Proof.
  revert s k; induction sep as [|a sep IH]; intros s k; [now destruct s|].
  destruct k as [|k]; destruct s as [|c s]; try discriminate.
  cbn [str_take String.prefix]. destruct (ascii_dec a c); [apply IH | discriminate].
Qed.

Lemma Index_nil (sep : string) : sep ≠ "" → Index "" sep = None.
Proof. destruct sep; [congruence | reflexivity]. Qed.

(** Before its first instance in [s], [sep] does not occur. *)
Lemma Index_take_none (s sep : string) (m : nat) :
  sep ≠ "" → Index s sep = Some m → Index (str_take m s) sep = None.
Proof.
  intros Hsep. revert m; induction s as [|c s IH]; intros m.
  - rewrite Index_nil by exact Hsep. discriminate.
  - cbn [Index]. destruct (String.prefix sep (String c s)) eqn:Hp.
    + intros [= <-]. now apply Index_nil.
    + destruct (Index s sep) as [m'|] eqn:E; [|discriminate].
      intros [= <-]. cbn [str_take Index].
      destruct (String.prefix sep (String c (str_take m' s))) eqn:Hp'.
      * apply (prefix_take sep (String c s) (S m')) in Hp'. congruence.
      * now rewrite (IH m' eq_refl).
Qed.

Lemma Count_loop_le (k : nat) (s sep : string) : (Count_loop k s sep <= k)%nat.
Proof.
  revert s; induction k as [|k IH]; intros s; [reflexivity|].
  cbn [Count_loop]. destruct (Index s sep); [|lia].
  specialize (IH (str_drop (n + String.length sep) s)). lia.
Qed.

Lemma Index_lt (s sep : string) (m : nat) :
  sep ≠ "" → Index s sep = Some m → (m < String.length s)%nat.
Proof.
  intros Hsep. revert m; induction s as [|c s IH]; intros m.
  - rewrite Index_nil by exact Hsep. discriminate.
  - cbn [Index]. destruct (String.prefix sep (String c s)).
    + intros [= <-]. simpl. lia.
    + destruct (Index s sep) as [m'|]; [|discriminate].
      intros [= <-]. specialize (IH m' eq_refl). simpl. lia.
Qed.

Lemma genSplit_loop_Count (k : nat) (s sep : string) :
  sep ≠ "" → (String.length s <= k)%nat →
  Forall (λ p, Index p sep = None) (genSplit_loop (Count_loop k s sep) s sep).
Proof.
  intros Hsep. revert s; induction k as [|k IH]; intros s Hle.
  - destruct s; [|simpl in Hle; lia].
    cbn [Count_loop genSplit_loop]. repeat constructor. now apply Index_nil.
  - cbn [Count_loop]. destruct (Index s sep) as [m|] eqn:E.
    + cbn [genSplit_loop]. rewrite E. constructor.
      * now apply Index_take_none.
      * apply IH. rewrite str_length_drop. apply (Index_lt _ _ _ Hsep) in E.
        destruct sep; [congruence|]. simpl. lia.
    + cbn [genSplit_loop]. now repeat constructor.
Qed.

(** No part of [Split(s, sep)] contains the separator. *)
Lemma Split_parts (s sep : string) :
  sep ≠ "" → Forall (λ p, Index p sep = None) (Split s sep).
Proof.
  intros Hsep. unfold Split, genSplit. change (-1 =? 0)%Z with false.
  destruct (String.eqb_spec sep ""); [congruence|].
  change (-1 <? 0)%Z with true. cbv iota.
  pose proof (Count_loop_le (String.length s) s sep) as Hle. fold (Count s sep) in Hle.
  destruct (_ <? _)%Z eqn:E; [apply Z.ltb_lt in E; lia|].
  replace (Z.to_nat (Z.of_nat (Count s sep) + 1 - 1)) with (Count s sep) by lia.
  apply genSplit_loop_Count; [exact Hsep | lia].
Qed.

Lemma str_drop_add (a b : nat) (s : string) :
  str_drop (a + b) s = str_drop b (str_drop a s).
Proof.
  revert s; induction a as [|a IH]; intros s; [reflexivity|].
  destruct s as [|c s]; [now destruct b | apply IH].
Qed.

(** The rune that [indexFunc] finds answers [truth]. *)
Lemma indexFunc_found (f : N → bool) (truth : bool) (s : string) (i : nat) :
  indexFunc s f truth = Some i →
  f (DecodeRuneInString (str_drop i s)).1 = truth.
Proof.
  remember (String.length s) as n eqn:Hn.
  assert (String.length s <= n)%nat as Hle by lia. clear Hn.
  revert s i Hle. induction n as [|n IH]; intros s i Hle.
  - destruct s; [discriminate | simpl in Hle; lia].
  - destruct s as [|c s]; [discriminate|].
    rewrite indexFunc_unfold by discriminate.
    pose proof (DecodeRune_width (String c s) ltac:(discriminate)) as Hw.
    destruct (DecodeRuneInString (String c s)) as [r w] eqn:Hdec. simpl snd in Hw.
    destruct (Bool.eqb (f r) truth) eqn:Hf.
    + intros [= <-]. cbn [str_drop]. rewrite Hdec. now apply Bool.eqb_prop.
    + destruct (indexFunc (str_drop w (String c s)) f truth) as [j|] eqn:E;
        [|discriminate].
      intros [= <-]. rewrite str_drop_add. apply IH; [|exact E].
      rewrite str_length_drop. simpl in *. lia.
Qed.

(** What [TrimSpace] returns does not begin with ASCII white space. *)
Lemma TrimSpace_head (s : string) (c : ascii) (t : string) :
  TrimSpace s = String c t → asciiSpace c = false.
Proof.
  unfold TrimSpace, TrimFunc. intros H.
  assert (∃ k, TrimRightFunc (TrimLeftFunc s Unicode.IsSpace) Unicode.IsSpace
               = str_take k (TrimLeftFunc s Unicode.IsSpace)) as [k Hk].
  { unfold TrimRightFunc. destruct (lastIndexFunc _ _ _) as [i|]; [|now exists 0%nat].
    destruct (_ <=? _)%N; [|eauto]. destruct (DecodeRuneInString _); eauto. }
  rewrite Hk in H. unfold TrimLeftFunc in H.
  destruct (indexFunc s Unicode.IsSpace false) as [i|] eqn:E.
  2:{ now destruct k. }
  apply indexFunc_found in E.
  destruct (str_drop i s) as [|c' t']; [now destruct k|].
  destruct k; [discriminate|]. cbn [str_take] in H. injection H as -> _.
  destruct (asciiSpace c) eqn:Hc; [|reflexivity].
  apply asciiSpace_spec in Hc as [Hc Hsp].
  rewrite (DecodeRune_ascii _ _ Hc) in E. cbn [fst] in E. congruence.
Qed.

(** X12: the method of a parsed request is not empty and holds no space;
    the target holds no space (it may be empty). *)
Theorem parseRequest_tokens (pool : Pool) (conn : Conn) (req : Request) :
  (parseRequest pool conn).1 = Return req →
  Method req ≠ ""
  ∧ Index (Method req) " " = None
  ∧ Index (URL req) " " = None.
Proof.
  intros (line & r1 & r2 & v & _ & Hparts & _)%parseRequest_returns.
  pose proof (Split_parts (TrimSpace line) " " ltac:(discriminate)) as Hno.
  rewrite Hparts in Hno.
  apply Forall_cons in Hno as [Hm Hno]. apply Forall_cons in Hno as [Hu _].
  split; [|auto]. intros Hempty.
  unfold Split, genSplit in Hparts. change (-1 =? 0)%Z with false in Hparts.
  change (" " =? "")%string with false in Hparts.
  change (-1 <? 0)%Z with true in Hparts. cbv iota in Hparts.
  pose proof (Count_loop_le (String.length (TrimSpace line)) (TrimSpace line) " ") as Hle.
  fold (Count (TrimSpace line) " ") in Hle.
  destruct (_ <? _)%Z eqn:E in Hparts; [apply Z.ltb_lt in E; lia|].
  replace (Z.to_nat (Z.of_nat (Count (TrimSpace line) " ") + 1 - 1))
    with (Count (TrimSpace line) " ") in Hparts by lia.
  destruct (Count (TrimSpace line) " ") as [|n]; [discriminate|].
  cbn [genSplit_loop] in Hparts.
  destruct (Index (TrimSpace line) " ") as [i|] eqn:Hi; [|discriminate].
  injection Hparts as Hhead _. rewrite Hempty in Hhead.
  destruct (TrimSpace line) as [|c t] eqn:Htrim; [discriminate|].
  destruct i; [|discriminate].
  cbn [Index String.prefix] in Hi.
  destruct (ascii_dec " " c) as [<-|]; [|now destruct (Index t " ")].
  apply TrimSpace_head in Htrim. discriminate.
Qed.

Lemma parseRequest_tokens_witness :
  Method hello_request ≠ "" ∧ Index (Method hello_request) " " = None
  ∧ Index (URL hello_request) " " = None.
Proof.
  apply (parseRequest_tokens new_pool
           (client ("GET /hello HTTP/1.1" ++ CRLF ++ "Name: Go" ++ CRLF ++ CRLF))).
  vm_compute. reflexivity.
Defined.

(** The header loop keeps what holds of all header names. *)
Lemma readHeaders_names (r r' : Reader) (hs hs' : gmap string string) :
  map_Forall (λ name _, Index name ": " = None) hs →
  readHeaders r hs = inr (hs', r') →
  map_Forall (λ name _, Index name ": " = None) hs'.
Proof.
  remember (String.length (rd_buf r)) as n eqn:Hn.
  assert (String.length (rd_buf r) <= n)%nat as Hle by lia. clear Hn.
  revert r hs Hle. induction n as [|n IH]; intros r hs Hle Hhs;
    rewrite readHeaders_eq;
    destruct (ReadString r LF) as [[line [err|]] r1] eqn:Hread; try discriminate.
  - apply ReadString_shrinks in Hread. lia.
  - cbv zeta. destruct (String.eqb_spec (TrimSpace line) "") as [|Hne];
      [now intros [= <- <-]|].
    apply ReadString_shrinks in Hread.
    rewrite (SplitN_colon_space _ Hne).
    destruct (Index (TrimSpace line) ": ") as [m|] eqn:Hi; [|discriminate].
    apply IH; [lia|]. apply map_Forall_insert_2; [|exact Hhs].
    apply Index_take_none; [discriminate | exact Hi].
Qed.

(** X13: no header name of a parsed request contains colon-space: every
    header line was cut at its first colon-space. *)
Theorem parseRequest_header_names (pool : Pool) (conn : Conn) (req : Request)
    (name value : string) :
  (parseRequest pool conn).1 = Return req →
  Headers req !! name = Some value →
  Index name ": " = None.
Proof.
  intros (line & r1 & r2 & v & _ & _ & Hhs)%parseRequest_returns Hlookup.
  apply (readHeaders_names _ _ _ _ (map_Forall_empty _) Hhs name value Hlookup).
Qed.

Lemma parseRequest_header_names_witness :
  Index "Name" ": " = None.
Proof.
  apply (parseRequest_header_names new_pool
           (client ("GET /hello HTTP/1.1" ++ CRLF ++ "Name: Go" ++ CRLF ++ CRLF))
           hello_request "Name" "Go").
  - vm_compute. reflexivity.
  - vm_compute. reflexivity.
Defined.

(** X14: the body of a parsed request is empty when the request has no
    header Content-Length; otherwise the header's value is a number that is
    not negative, and the body has exactly that many bytes. *)
Theorem parseRequest_body_length (pool : Pool) (conn : Conn) (req : Request) :
  (parseRequest pool conn).1 = Return req →
  match Headers req !! "Content-Length" with
  | None => Body req = ""
  | Some contentLength =>
      ∃ length, Strconv.Atoi contentLength = Some length
                ∧ (0 <= length)%Z
                ∧ Z.of_nat (String.length (Body req)) = length
  end.
Proof.
  destruct (ReadString (NewReader conn) LF) as [[line [e|]] r1] eqn:Hread.
  { unfold parseRequest. now rewrite Hread. }
  destruct (Strings.Split (Strings.TrimSpace line) " ") as [|m [|u [|v [|? ?]]]] eqn:Hparts;
    try (rewrite (parseRequest_request_line _ _ _ _ Hread);
         [discriminate | rewrite Hparts; simpl; lia]).
  destruct (readHeaders r1 ∅) as [e|[headers r2]] eqn:Hhs.
  { rewrite (parseRequest_header_error _ _ _ _ e Hread); [discriminate| |exact Hhs].
    now rewrite Hparts. }
  rewrite (parseRequest_after_headers _ _ _ _ _ _ _ _ _ Hread Hparts Hhs).
  destruct (headers !! "Content-Length") as [cl|] eqn:Hcl.
  2:{ intros [= <-]. cbn [Headers Body]. now rewrite Hcl. }
  destruct (Strconv.Atoi cl) as [n|] eqn:Hn; [|discriminate].
  cbn [fst]. destruct (readBody r2 (Get pool).1 n).1 as [body| |] eqn:Hbody;
    try discriminate.
  intros [= <-]. cbn [Headers Body]. rewrite Hcl. exists n. split; [exact Hn|].
  unfold readBody, slice_to in Hbody.
  destruct ((0 <=? n)%Z && (n <=? _)%Z) eqn:E; [|discriminate].
  apply andb_true_iff in E as [E1 E2]. apply Z.leb_le in E1, E2.
  unfold ReadFull in Hbody. rewrite str_length_take in Hbody by lia.
  destruct (_ <=? _)%nat eqn:Hin; [|discriminate].
  apply Nat.leb_le in Hin. cbn [fst] in Hbody. injection Hbody as <-.
  rewrite str_length_take by exact Hin. lia.
Qed.

Lemma parseRequest_body_length_witness :
  match Headers posted_request !! "Content-Length" with
  | None => Body posted_request = ""
  | Some contentLength =>
      ∃ length, Strconv.Atoi contentLength = Some length
                ∧ (0 <= length)%Z
                ∧ Z.of_nat (String.length (Body posted_request)) = length
  end.
Proof.
  apply (parseRequest_body_length new_pool
           (client ("POST / HTTP/1.1" ++ CRLF ++ "Content-Length: 5" ++ CRLF ++ CRLF
                    ++ "helloworld"))).
  vm_compute. reflexivity.
Defined.

Lemma parseRequest_body_witness :
  (parseRequest used_pool short_body).1 = Fail ErrUnexpectedEOF.
Proof.
  refine (parseRequest_body used_pool short_body ("POST / HTTP/1.1" ++ CRLF)
            {| rd_buf := "Content-Length: 5" ++ CRLF ++ CRLF ++ "hel"; rd_end := PeerClosed |}
            {| rd_buf := "hel"; rd_end := PeerClosed |}
            "POST" "/" "HTTP/1.1" {[ "Content-Length" := "5" ]} "5" 5%Z _ _ _ _ _ _).
  - repeat constructor.
  - vm_compute. reflexivity.
  - vm_compute. reflexivity.
  - vm_compute. reflexivity.
  - vm_compute. reflexivity.
  - vm_compute. reflexivity.
Defined.

Lemma parseRequest_pool_ok_witness :
  pool_ok (parseRequest used_pool short_body).2.
Proof.
  apply parseRequest_pool_ok. repeat constructor.
Defined.

(** ** Bytes after the request *)

Lemma IndexByte_app_some (s t : string) (c : ascii) (i : nat) :
  IndexByte s c = Some i →
  IndexByte (s ++ t) c = Some i ∧ (i < String.length s)%nat.
Proof.
  revert i; induction s as [|a s IH]; intros i; [discriminate|].
  cbn [IndexByte String.append String.length]. destruct (Ascii.eqb a c).
  - intros [= <-]. split; [reflexivity | lia].
  - destruct (IndexByte s c) as [j|]; [|discriminate].
    intros [= <-]. destruct (IH j eq_refl) as [-> Hj]. split; [reflexivity | lia].
Qed.

(** A line that is there in full is read the same with more bytes behind. *)
Lemma ReadString_more (s t line rest : string) (e e1 e' : stream_end) :
  ReadString {| rd_buf := s; rd_end := e |} LF
  = (line, None, {| rd_buf := rest; rd_end := e1 |}) →
  ReadString {| rd_buf := s ++ t; rd_end := e' |} LF
  = (line, None, {| rd_buf := rest ++ t; rd_end := e' |}).
Proof.
  unfold ReadString. cbn [rd_buf rd_end].
  destruct (IndexByte s LF) as [i|] eqn:E; [|discriminate].
  destruct (IndexByte_app_some s t LF i E) as [-> Hi].
  intros [= <- <- _]. rewrite str_take_app_le, str_drop_app_le by lia. reflexivity.
Qed.

Lemma readHeaders_more (s t : string) (e e' : stream_end)
    (hs hs' : gmap string string) (r' : Reader) :
  readHeaders {| rd_buf := s; rd_end := e |} hs = inr (hs', r') →
  readHeaders {| rd_buf := s ++ t; rd_end := e' |} hs
  = inr (hs', {| rd_buf := rd_buf r' ++ t; rd_end := e' |}).
Proof.
  remember (String.length s) as n eqn:Hn.
  assert (String.length s <= n)%nat as Hle by lia. clear Hn.
  revert s hs Hle. induction n as [|n IH]; intros s hs Hle;
    rewrite (readHeaders_eq {| rd_buf := s; rd_end := e |});
    destruct (ReadString {| rd_buf := s; rd_end := e |} LF) as [[line [err|]] [rest e1]] eqn:Hread;
    try discriminate.
  - apply ReadString_shrinks in Hread. cbn [rd_buf] in Hread. lia.
  - pose proof (ReadString_rd_end _ _ _ _ Hread) as He. cbn [rd_end] in He. subst e1.
    rewrite readHeaders_eq, (ReadString_more _ t _ _ _ _ e' Hread). cbv zeta.
    destruct (String.eqb _ ""); [now intros [= <- <-]|].
    apply ReadString_shrinks in Hread. cbn [rd_buf] in Hread.
    destruct (Strings.SplitN _ _ _) as [|k [|v [|? ?]]]; try discriminate.
    apply IH. lia.
Qed.

Lemma readBody_more (s t : string) (e e' : stream_end) (b : Buffer) (length : Z)
    (body : string) :
  (readBody {| rd_buf := s; rd_end := e |} b length).1 = Return body →
  (readBody {| rd_buf := s ++ t; rd_end := e' |} b length).1 = Return body.
Proof.
  unfold readBody. destruct (slice_to _ _) as [view|]; [|discriminate].
  unfold ReadFull. cbn [rd_buf rd_end].
  destruct (String.length view <=? String.length s)%nat eqn:Hin; [|discriminate].
  apply Nat.leb_le in Hin. rewrite str_length_app.
  destruct (String.length view <=? String.length s + String.length t)%nat eqn:Hin'.
  2:{ apply Nat.leb_gt in Hin'. lia. }
  cbn [fst]. intros [= <-]. now rewrite str_take_app_le.
Qed.

(** X15: when [parseRequest] returns a request, it returns the same request
    with any further bytes behind it on the stream, however the stream ends:
    nothing after the declared body is looked at. *)
Theorem parseRequest_ignores_trailing_bytes (pool : Pool) (conn conn' : Conn)
    (req : Request) (extra : string) :
  (parseRequest pool conn).1 = Return req →
  incoming conn' = incoming conn ++ extra →
  (parseRequest pool conn').1 = Return req.
Proof.
  intros Hparse Hin.
  destruct (ReadString (NewReader conn) LF) as [[line [e|]] [s1 e1]] eqn:Hread.
  { unfold parseRequest in Hparse. now rewrite Hread in Hparse. }
  pose proof (ReadString_more _ extra _ _ _ _ (incoming_end conn') Hread) as Hread'.
  rewrite <- Hin in Hread'. fold (NewReader conn') in Hread'.
  destruct (Strings.Split (Strings.TrimSpace line) " ") as [|m [|u [|v [|? ?]]]] eqn:Hparts;
    try (rewrite (parseRequest_request_line _ _ _ _ Hread) in Hparse;
         [discriminate | rewrite Hparts; simpl; lia]).
  destruct (readHeaders {| rd_buf := s1; rd_end := e1 |} ∅) as [e|[headers [s2 e2]]] eqn:Hhs.
  { rewrite (parseRequest_header_error _ _ _ _ e Hread) in Hparse;
      [discriminate|now rewrite Hparts|exact Hhs]. }
  pose proof (readHeaders_more _ extra _ (incoming_end conn') _ _ _ Hhs) as Hhs'.
  cbn [rd_buf] in Hhs'.
  rewrite (parseRequest_after_headers _ _ _ _ _ _ _ _ _ Hread Hparts Hhs) in Hparse.
  rewrite (parseRequest_after_headers _ _ _ _ _ _ _ _ _ Hread' Hparts Hhs').
  destruct (headers !! "Content-Length") as [cl|]; [|exact Hparse].
  destruct (Strconv.Atoi cl) as [n|]; [|discriminate].
  cbn [fst] in *.
  destruct (readBody {| rd_buf := s2; rd_end := e2 |} (Get pool).1 n).1 as [body| |] eqn:Hbody;
    try discriminate.
  now rewrite (readBody_more _ extra _ (incoming_end conn') _ _ _ Hbody).
Qed.

Lemma parseRequest_ignores_trailing_bytes_witness :
  (parseRequest new_pool
     (client ("POST / HTTP/1.1" ++ CRLF ++ "Content-Length: 5" ++ CRLF ++ CRLF
              ++ "hello" ++ "GET /next HTTP/1.1" ++ CRLF ++ CRLF))).1
  = Return posted_request.
Proof.
  apply (parseRequest_ignores_trailing_bytes new_pool
           (client ("POST / HTTP/1.1" ++ CRLF ++ "Content-Length: 5" ++ CRLF ++ CRLF
                    ++ "hello"))
           _ posted_request ("GET /next HTTP/1.1" ++ CRLF ++ CRLF)).
  - vm_compute. reflexivity.
  - reflexivity.
Defined.
